(** * Smart OPD queue: token allocation, queue position and token lifecycle

    A shallow embedding of [src/app.py] (the Flask endpoints [create_token],
    [get_token], [cancel_token], [approve_priority], [update_status] and
    [call_next]) over an explicit model of the MySQL store they talk to.
    Every SQL statement the code issues is one function on [store]; an
    endpoint is the composition of its statements, in the order of the code. *)

From Stdlib Require Import List Arith Lia Bool String Ascii Permutation ZArith QArith.
From Stdlib Require Import Sorting.Sorted.
Import ListNotations.
Open Scope string_scope.
Open Scope nat_scope.

(* ------------------------------------------------------------------ *)
(** ** Data model *)

(** A Python [datetime.date]: 1 <= year <= 9999, 1 <= month <= 12. *)
Record date := mkDate { year : nat; month : nat; day : nat }.

Definition date_eqb (a b : date) : bool :=
  (year a =? year b) && (month a =? month b) && (day a =? day b).

Inductive token_status := Waiting | Called | InProgress | Completed | Cancelled | NoShow.

Definition status_eqb (a b : token_status) : bool :=
  match a, b with
  | Waiting, Waiting | Called, Called | InProgress, InProgress
  | Completed, Completed | Cancelled, Cancelled | NoShow, NoShow => true
  | _, _ => false
  end.

(** A row of the [tokens] table, as the code reads and writes it.
    Timestamps ([NOW()]) are natural numbers. *)
Record token := mkToken {
  id : nat;
  token_no : string;
  patient_name : string;
  patient_phone : string;
  dept_id : nat;
  appointment_date : date;
  priority_requested : bool;
  priority_approved : bool;
  status : token_status;
  reason : string;
  created_at : nat;
  called_at : option nat;
  completed_at : option nat;
  cancelled_at : option nat;
  cancelled_by : option string
}.

(** A row of the [departments] table ([avg_service_time] may be NULL). *)
Record department := mkDepartment {
  dept_key : nat;
  abbr : option string;
  avg_service_time : option nat
}.

(** A row of the [logs] table: [(token_id, event, actor)]. *)
Record log_entry := mkLog {
  log_token_id : option nat;
  event : string;
  actor : option string
}.

(** The database: the three tables and the AUTO_INCREMENT counter of
    [tokens.id]. *)
Record store := mkStore {
  tokens : list token;
  departments : list department;
  logs : list log_entry;
  next_id : nat
}.

(** The Flask session: ['user_id'] and ['name'] (either may be absent). *)
Record session := mkSession { sess_user_id : option nat; sess_name : option string }.

(* ------------------------------------------------------------------ *)
(** ** String formatting *)

Definition digit (k : nat) : ascii := ascii_of_nat (48 + k mod 10).

(** Python [str(n)] for a natural number. *)
Fixpoint str_aux (fuel n : nat) (acc : string) : string :=
  match fuel with
  | 0 => acc
  | S f =>
      let acc' := String (digit n) acc in
      if n <? 10 then acc' else str_aux f (n / 10) acc'
  end.

Definition str (n : nat) : string := str_aux (S n) n "".

(** Python [s.zfill(w)] for a string without sign. *)
Fixpoint zeros (k : nat) : string :=
  match k with 0 => "" | S k' => String "0" (zeros k') end.

Definition zfill (w : nat) (s : string) : string := zeros (w - String.length s) ++ s.

(** The [w] last decimal digits of [n], zero padded. *)
Fixpoint digits_fixed (w n : nat) : string :=
  match w with
  | 0 => ""
  | S w' => digits_fixed w' (n / 10) ++ String (digit n) ""
  end.

(** [d.strftime('%Y%m%d')]. *)
Definition strftime_ymd (d : date) : string :=
  digits_fixed 4 (year d) ++ digits_fixed 2 (month d) ++ digits_fixed 2 (day d).

(** [f"{prefix}-{str(suffix).zfill(3)}-{date.today().strftime('%Y%m%d')}"]
    (also [utils/token_generator.format_token]). *)
Definition format_token (prefix : string) (suffix : nat) (today : date) : string :=
  prefix ++ "-" ++ zfill 3 (str suffix) ++ "-" ++ strftime_ymd today.

(* ------------------------------------------------------------------ *)
(** ** The SQL statements of the code *)

Definition update_where (p : token -> bool) (f : token -> token) (st : store) : store :=
  mkStore (map (fun t => if p t then f t else t) (tokens st))
          (departments st) (logs st) (next_id st).

(** [SELECT ... FROM departments WHERE id=%s] (first row). *)
Definition find_department (st : store) (d : nat) : option department :=
  find (fun dp => dept_key dp =? d) (departments st).

(** [SELECT ... FROM tokens WHERE token_no=%s] (first row). *)
Definition find_token (st : store) (tn : string) : option token :=
  find (fun t => String.eqb (token_no t) tn) (tokens st).

(** [WHERE dept_id = %s AND appointment_date = %s]. *)
Definition same_pair (d : nat) (D : date) (t : token) : bool :=
  (dept_id t =? d) && date_eqb (appointment_date t) D.

(** [SELECT COALESCE(MAX(id),0) + 1 FROM tokens
     WHERE dept_id = %s AND appointment_date = %s FOR UPDATE]. *)
Definition select_suffix (st : store) (d : nat) (D : date) : nat :=
  fold_left Nat.max (map id (filter (same_pair d D) (tokens st))) 0 + 1.

(** The values of [INSERT INTO tokens (token_no, patient_name, patient_phone,
    dept_id, appointment_date, priority_requested, reason)]. *)
Record new_token := mkNewToken {
  n_token_no : string;
  n_patient_name : string;
  n_patient_phone : string;
  n_dept_id : nat;
  n_appointment_date : date;
  n_priority_requested : bool;
  n_reason : string
}.

(** Modelled from the spec: the [tokens] table definition, which is not in
    src/ ("id: store-assigned unique integer", "ticket_no ... unique",
    [priority_approved] "initially false", status initially Waiting,
    [created_at] "set at insertion"): [id] is AUTO_INCREMENT, [token_no] is a
    unique key (the INSERT of an existing [token_no] raises IntegrityError and
    changes nothing, the code's "Duplicate key" case), and the other columns
    take their defaults. *)
Definition insert_token (st : store) (now : nat) (nt : new_token) : option store :=
  if existsb (fun t => String.eqb (token_no t) (n_token_no nt)) (tokens st)
  then None
  else Some (mkStore
    (app (tokens st)
       [mkToken (next_id st) (n_token_no nt) (n_patient_name nt) (n_patient_phone nt)
          (n_dept_id nt) (n_appointment_date nt) (n_priority_requested nt) false
          Waiting (n_reason nt) now None None None None])
    (departments st) (logs st) (S (next_id st))).

(** [INSERT INTO logs (token_id, event, actor)
     VALUES ((SELECT id FROM tokens WHERE token_no=%s), %s, %s)]. *)
Definition insert_log (st : store) (tn : string) (ev : string) (act : option string) : store :=
  mkStore (tokens st) (departments st)
          (app (logs st) [mkLog (option_map id (find_token st tn)) ev act])
          (next_id st).

Definition set_status (s : token_status) (t : token) : token :=
  mkToken (id t) (token_no t) (patient_name t) (patient_phone t) (dept_id t)
    (appointment_date t) (priority_requested t) (priority_approved t) s (reason t)
    (created_at t) (called_at t) (completed_at t) (cancelled_at t) (cancelled_by t).

Definition set_approved (t : token) : token :=
  mkToken (id t) (token_no t) (patient_name t) (patient_phone t) (dept_id t)
    (appointment_date t) (priority_requested t) true (status t) (reason t)
    (created_at t) (called_at t) (completed_at t) (cancelled_at t) (cancelled_by t).

Definition set_cancelled (now : nat) (by_ : string) (t : token) : token :=
  mkToken (id t) (token_no t) (patient_name t) (patient_phone t) (dept_id t)
    (appointment_date t) (priority_requested t) (priority_approved t) Cancelled
    (reason t) (created_at t) (called_at t) (completed_at t) (Some now) (Some by_).

Definition set_completed (now : nat) (t : token) : token :=
  mkToken (id t) (token_no t) (patient_name t) (patient_phone t) (dept_id t)
    (appointment_date t) (priority_requested t) (priority_approved t) Completed
    (reason t) (created_at t) (called_at t) (Some now) (cancelled_at t) (cancelled_by t).

Definition set_called (now : nat) (t : token) : token :=
  mkToken (id t) (token_no t) (patient_name t) (patient_phone t) (dept_id t)
    (appointment_date t) (priority_requested t) (priority_approved t) Called
    (reason t) (created_at t) (Some now) (completed_at t) (cancelled_at t) (cancelled_by t).

Definition is_status (s : token_status) (t : token) : bool := status_eqb (status t) s.

Definition has_token_no (tn : string) (t : token) : bool := String.eqb (token_no t) tn.

(** [UPDATE tokens SET status='Cancelled', cancelled_at=NOW(),
     cancelled_by='patient' WHERE token_no=%s AND status IN ('Waiting','Called')]. *)
Definition cancel_update (tn : string) (now : nat) (st : store) : store :=
  update_where (fun t => has_token_no tn t && (is_status Waiting t || is_status Called t))
               (set_cancelled now "patient") st.

(** [UPDATE tokens SET priority_approved=1 WHERE token_no=%s AND priority_requested=1]. *)
Definition approve_update (tn : string) (st : store) : store :=
  update_where (fun t => has_token_no tn t && priority_requested t) set_approved st.

(** [UPDATE tokens SET status='Completed', completed_at=NOW()
     WHERE token_no=%s AND status IN ('Called','In-Progress')]. *)
Definition complete_update (tn : string) (now : nat) (st : store) : store :=
  update_where (fun t => has_token_no tn t && (is_status Called t || is_status InProgress t))
               (set_completed now) st.

(** [UPDATE tokens SET status=%s WHERE token_no=%s]. *)
Definition status_update (tn : string) (s : token_status) (st : store) : store :=
  update_where (has_token_no tn) (set_status s) st.

(* ------------------------------------------------------------------ *)
(** ** Position and ETA (the query shared by [create_token] and [get_token]) *)

Definition b2n (b : bool) : nat := if b then 1 else 0.

(** The [WHERE] clause of the counting subquery, [tt] ranked ahead of [t]:
    [tt.dept_id = t.dept_id AND tt.appointment_date = t.appointment_date
     AND tt.status = 'Waiting' AND (tt.priority_approved > t.priority_approved
     OR (tt.priority_approved = t.priority_approved AND tt.created_at < t.created_at))]. *)
Definition ahead_sql (t tt : token) : bool :=
  (dept_id tt =? dept_id t) && date_eqb (appointment_date tt) (appointment_date t)
  && status_eqb (status tt) Waiting
  && ((b2n (priority_approved t) <? b2n (priority_approved tt))
      || ((b2n (priority_approved tt) =? b2n (priority_approved t))
          && (created_at tt <? created_at t))).

Definition position_ahead (st : store) (t : token) : nat :=
  List.length (filter (ahead_sql t) (tokens st)).

(** [SELECT COALESCE(d.avg_service_time,5) FROM departments d WHERE d.id = t.dept_id];
    [None] is the SQL NULL of a subquery without row. *)
Definition service_time (st : store) (d : nat) : option nat :=
  option_map (fun dp => match avg_service_time dp with Some a => a | None => 5 end)
             (find_department st d).

(** The whole [pos_eta] query: [None] when no row has that [token_no];
    an [estimated_wait_minutes] of [None] is SQL NULL ([NULL * n]). *)
Definition pos_eta (st : store) (tn : string) : option (nat * option nat) :=
  match find_token st tn with
  | None => None
  | Some t =>
      let p := position_ahead st t in
      Some (p, option_map (fun a => a * p) (service_time st (dept_id t)))
  end.

(* ------------------------------------------------------------------ *)
(** ** [create_token]: the allocation loop *)

Definition max_attempts : nat := 8.

(** What one call of [create_token] inserts, once the department is known. *)
Record alloc_req := mkAllocReq {
  a_prefix : string;
  a_patient_name : string;
  a_patient_phone : string;
  a_dept_id : nat;
  a_appointment_date : date;
  a_priority_requested : bool;
  a_reason : string
}.

Definition new_of (r : alloc_req) (tn : string) : new_token :=
  mkNewToken tn (a_patient_name r) (a_patient_phone r) (a_dept_id r)
             (a_appointment_date r) (a_priority_requested r) (a_reason r).

(** Where a call is in the [while] loop; every constructor but [ALoop] is
    about to run one SQL statement (or has returned).
    - [ALoop attempt]: the loop test, then [attempt += 1] and the
      [SELECT COALESCE(MAX(id),0) + 1 ...] of the new attempt;
    - [AInsert attempt suffix]: the first INSERT of the attempt;
    - [ARetry attempt suffix]: the INSERT of the [IntegrityError] handler,
      [suffix] already incremented;
    - [ADone created_token]: the loop has exited. *)
Inductive alloc_pc :=
| ALoop (attempt : nat)
| AInsert (attempt suffix : nat)
| ARetry (attempt suffix : nat)
| ADone (created : option string).

(** One atomic statement of the loop; [today] is [date.today()] and [now] is
    [NOW()] at the moment the statement runs. A failing INSERT is rolled back,
    which leaves the store as it was. *)
Definition alloc_step (r : alloc_req) (today : date) (now : nat)
    (pc : alloc_pc) (st : store) : alloc_pc * store :=
  match pc with
  | ALoop attempt =>
      if attempt <? max_attempts
      then (AInsert (S attempt) (select_suffix st (a_dept_id r) (a_appointment_date r)), st)
      else (ADone None, st)
  | AInsert attempt suffix =>
      let tn := format_token (a_prefix r) suffix today in
      match insert_token st now (new_of r tn) with
      | Some st' => (ADone (Some tn), st')
      | None => (ARetry attempt (S suffix), st)
      end
  | ARetry attempt suffix =>
      let tn := format_token (a_prefix r) suffix today in
      match insert_token st now (new_of r tn) with
      | Some st' => (ADone (Some tn), st')
      | None => (ALoop attempt, st)
      end
  | ADone c => (ADone c, st)
  end.

(** The loop run alone (no concurrent writer), all statements on the same day
    and clock; three statements per attempt and the final test. *)
Fixpoint run_alloc (fuel : nat) (r : alloc_req) (today : date) (now : nat)
    (pc : alloc_pc) (st : store) : alloc_pc * store :=
  match fuel with
  | 0 => (pc, st)
  | S f =>
      match pc with
      | ADone _ => (pc, st)
      | _ => let (pc', st') := alloc_step r today now pc st in
             run_alloc f r today now pc' st'
      end
  end.

Definition alloc_fuel : nat := 3 * max_attempts + 1.

(* ------------------------------------------------------------------ *)
(** ** The endpoints *)

(** The JSON body of [POST /api/token]; [c_appointment_date] is [None] when
    ["appointment_date"] is missing or empty, [c_reason] likewise. *)
Record create_req := mkCreateReq {
  c_patient_name : string;
  c_patient_phone : string;
  c_dept_id : nat;
  c_appointment_date : option date;
  c_priority_requested : bool;
  c_reason : option string
}.

Inductive create_result :=
| CreateInvalidDept                                   (* 400 "Invalid department" *)
| CreateAllocFail                                     (* 500 "Could not generate unique token" *)
| CreateSuccess (tn : string) (position : nat) (eta : option nat).  (* 201 *)

(** [dept["abbr"] or "TKN"]. *)
Definition prefix_of (dp : department) : string :=
  match abbr dp with
  | Some s => if String.eqb s "" then "TKN" else s
  | None => "TKN"
  end.

Definition effective_date (o : option date) (today : date) : date :=
  match o with Some D => D | None => today end.

Definition create_token (today : date) (now : nat) (r : create_req) (st : store)
    : create_result * store :=
  let D := effective_date (c_appointment_date r) today in
  let rsn := match c_reason r with
             | Some s => if String.eqb s "" then "Visit" else s
             | None => "Visit" end in
  match find_department st (c_dept_id r) with
  | None => (CreateInvalidDept, st)
  | Some dp =>
      let ar := mkAllocReq (prefix_of dp) (c_patient_name r) (c_patient_phone r)
                  (c_dept_id r) D (c_priority_requested r) rsn in
      match run_alloc alloc_fuel ar today now (ALoop 0) st with
      | (ADone (Some tn), st') =>
          match pos_eta st' tn with
          | Some (p, e) => (CreateSuccess tn p e, st')
          | None => (CreateSuccess tn 0 (Some 0), st')
          end
      | (_, st') => (CreateAllocFail, st')
      end
  end.

Inductive get_result :=
| GetNotFound                                        (* 404 *)
| GetSuccess (t : token) (position : nat) (eta : option nat)
| GetError.                                          (* pos_eta is None: TypeError *)

Definition get_token (st : store) (tn : string) : get_result :=
  match find_token st tn with
  | None => GetNotFound
  | Some t =>
      match pos_eta st tn with
      | Some (p, e) => GetSuccess t p e
      | None => GetError
      end
  end.

(** [exec_stmt] returns [cur.lastrowid]. An UPDATE generates no
    AUTO_INCREMENT value, so after one the connector reports a value that does
    not depend on the rows the UPDATE matched (0 for mysql-connector); it is
    the parameter [update_lastrowid] below, [None] standing for Python [None]. *)
Inductive cancel_result :=
| CancelSuccess                  (* "Cancelled" *)
| CancelRejected.                (* 400 "Cannot cancel ..." *)

Definition cancel_token (update_lastrowid : option nat) (tn : string) (now : nat)
    (st : store) : cancel_result * store :=
  let st1 := cancel_update tn now st in
  let rows := update_lastrowid in
  match rows with
  | Some 0 => (CancelRejected, st1)
  | _ => (CancelSuccess, insert_log st1 tn "cancelled" (Some "patient"))
  end.

Inductive approve_result := ApproveUnauthorized | ApproveSuccess.

Definition approve_priority (s : session) (tn : string) (st : store)
    : approve_result * store :=
  match sess_user_id s with
  | None => (ApproveUnauthorized, st)
  | Some _ =>
      let st1 := approve_update tn st in
      (ApproveSuccess, insert_log st1 tn "approved_priority" (sess_name s))
  end.

Inductive status_result := StatusUnauthorized | StatusInvalid | StatusSuccess.

(** [new_status not in ["In-Progress","Completed","No-show"]]. *)
Definition parse_new_status (s : string) : option token_status :=
  if String.eqb s "In-Progress" then Some InProgress
  else if String.eqb s "Completed" then Some Completed
  else if String.eqb s "No-show" then Some NoShow
  else None.

Definition update_status (s : session) (tn : string) (new_status : string) (now : nat)
    (st : store) : status_result * store :=
  match sess_user_id s with
  | None => (StatusUnauthorized, st)
  | Some _ =>
      match parse_new_status new_status with
      | None => (StatusInvalid, st)
      | Some ns =>
          let st1 := match ns with
                     | Completed => complete_update tn now st
                     | _ => status_update tn ns st
                     end in
          (StatusSuccess, insert_log st1 tn new_status (sess_name s))
      end
  end.

(** Ranking of the Queue Order Model: [a] is served before [b]
    (priority_approved desc, created_at asc, ties by insertion order). *)
Definition serve_before (a b : token) : bool :=
  (priority_approved a && negb (priority_approved b))
  || (Bool.eqb (priority_approved a) (priority_approved b)
      && ((created_at a <? created_at b)
          || ((created_at a =? created_at b) && (id a <? id b)))).

(** [ORDER BY ... LIMIT 1] over the rows satisfying [P]: the first row, in
    table order, that no later row beats. *)
Definition pick_step (P : token -> bool) (better : token -> token -> bool)
    (acc : option token) (t : token) : option token :=
  if P t then
    match acc with
    | None => Some t
    | Some b => if better t b then Some t else acc
    end
  else acc.

Definition pick_best (P : token -> bool) (better : token -> token -> bool)
    (l : list token) : option token :=
  fold_left (pick_step P better) l None.

Definition top_waiting (st : store) (d : nat) (D : date) : option token :=
  pick_best (fun t => same_pair d D t && is_status Waiting t) serve_before (tokens st).

(** Modelled from the spec: the stored procedure [call_next_token], which is
    not in src/ (section 4.4: "select the single Waiting ticket for
    (department_id, date) with the highest rank per the Queue Order Model
    (priority_approved desc, created_at asc), transition it to Called, stamp
    called_at = now, and emit an audit entry with actor. If no Waiting ticket
    exists", nothing is changed). *)
Definition call_next_token (d : nat) (D : date) (act : string) (now : nat)
    (st : store) : store :=
  match top_waiting st d D with
  | None => st
  | Some t =>
      let st1 := update_where (fun u => id u =? id t) (set_called now) st in
      insert_log st1 (token_no t) "called" (Some act)
  end.

(** [ORDER BY called_at DESC] puts NULL last. *)
Definition called_later (a b : option nat) : bool :=
  match a, b with
  | Some x, Some y => y <? x
  | Some _, None => true
  | None, _ => false
  end.

(** [SELECT token_no, status, called_at FROM tokens WHERE dept_id=%s AND
     appointment_date=%s AND status='Called' ORDER BY called_at DESC LIMIT 1];
    among rows with equal [called_at] the first in table order is taken. *)
Definition latest_called (st : store) (d : nat) (D : date) : option token :=
  pick_best (fun t => same_pair d D t && is_status Called t)
            (fun t b => called_later (called_at t) (called_at b)) (tokens st).

Inductive call_result := CallUnauthorized | CallSuccess (called_token : option token).

Definition call_next (s : session) (d : nat) (req_date : option date) (today : date)
    (now : nat) (st : store) : call_result * store :=
  match sess_user_id s with
  | None => (CallUnauthorized, st)
  | Some _ =>
      let D := effective_date req_date today in
      let act := match sess_name s with
                 | Some n => if String.eqb n "" then "staff" else n
                 | None => "staff" end in
      let st1 := call_next_token d D act now st in
      (CallSuccess (latest_called st1 d D), st1)
  end.

(* ------------------------------------------------------------------ *)
(** ** Listing endpoints: [staff_get_tokens] and [admin_tokens] *)

(** [ORDER BY] with a strict comparison [lt] ([lt a b]: [a] sorts first):
    an insertion sort, rows the key does not separate keep table order. *)
Fixpoint insert_by {A} (lt : A -> A -> bool) (t : A) (l : list A) : list A :=
  match l with
  | [] => [t]
  | u :: l' => if lt t u then t :: l else u :: insert_by lt t l'
  end.

Definition order_by {A} (lt : A -> A -> bool) (l : list A) : list A :=
  fold_left (fun acc t => insert_by lt t acc) l [].

(** [ORDER BY priority_approved DESC, created_at ASC]. *)
Definition staff_order (a b : token) : bool :=
  (priority_approved a && negb (priority_approved b))
  || (Bool.eqb (priority_approved a) (priority_approved b) && (created_at a <? created_at b)).

(** [ORDER BY dept_id, created_at]. *)
Definition admin_order (a b : token) : bool :=
  (dept_id a <? dept_id b) || ((dept_id a =? dept_id b) && (created_at a <? created_at b)).

Inductive list_result :=
| ListUnauthorized                (* 401 *)
| ListDeptRequired                (* 400 "dept_id required" *)
| ListSuccess (rows : list token).

(** [GET /api/staff/tokens]. [dept_arg] is [request.args.get("dept_id")], a
    string MySQL compares with the integer column [dept_id] after converting
    it to a number: [sql_num] is that conversion, [None] when the number is
    not a natural. [date_arg] is [None] when ["date"] is missing or empty. *)
Definition staff_get_tokens (sql_num : string -> option nat) (s : session)
    (dept_arg : option string) (date_arg : option date) (today : date) (st : store)
    : list_result :=
  match sess_user_id s with
  | None => ListUnauthorized
  | Some _ =>
      let D := effective_date date_arg today in
      match dept_arg with
      | None => ListDeptRequired
      | Some a =>
          if String.eqb a "" then ListDeptRequired
          else ListSuccess
                 (order_by staff_order
                    (filter (fun t => match sql_num a with
                                      | Some d => same_pair d D t
                                      | None => false end) (tokens st)))
      end
  end.

(** The whole Flask session: ['user_id'], ['role'] and ['name']. *)
Record flask_session := mkFlaskSession {
  fs_user_id : option nat;
  fs_role : option string;
  fs_name : option string
}.

(** What the staff endpoints read of it. *)
Definition to_session (fs : flask_session) : session :=
  mkSession (fs_user_id fs) (fs_name fs).

(** ['user_id' not in session or session.get('role') != 'admin'], negated. *)
Definition is_admin (fs : flask_session) : bool :=
  match fs_user_id fs, fs_role fs with
  | Some _, Some r => String.eqb r "admin"
  | _, _ => false
  end.

(** [GET /api/admin/tokens]: [SELECT * FROM tokens WHERE appointment_date=%s
    ORDER BY dept_id, created_at]. *)
Definition admin_tokens (fs : flask_session) (date_arg : option date) (today : date)
    (st : store) : list_result :=
  if is_admin fs
  then ListSuccess (order_by admin_order
         (filter (fun t => date_eqb (appointment_date t) (effective_date date_arg today))
                 (tokens st)))
  else ListUnauthorized.

(* ------------------------------------------------------------------ *)
(** ** Staff accounts: login, logout, [/api/me] and the admin endpoints *)

(** A row of the [users] table. Its schema is not in src/: [id] is taken to
    be AUTO_INCREMENT and no other key is assumed. *)
Record user := mkUser {
  user_id : nat;
  u_name : option string;
  u_email : option string;
  u_phone : option string;
  u_role : option string;
  u_department_id : option nat;
  u_is_active : nat
}.

Record user_store := mkUserStore { users : list user; next_user_id : nat }.

(** [WHERE email=%s AND is_active=1]; [email_eq] is the comparison of the
    column's collation, and a NULL on either side matches nothing. *)
Definition login_match (email_eq : string -> string -> bool) (email : option string)
    (u : user) : bool :=
  match email, u_email u with
  | Some e, Some ue => email_eq ue e
  | _, _ => false
  end && (u_is_active u =? 1).

Inductive login_result := LoginInvalid | LoginSuccess (u : user).

(** [POST /api/staff/login] ([query_one]: the first matching row). *)
Definition staff_login (email_eq : string -> string -> bool) (email : option string)
    (us : user_store) (fs : flask_session) : login_result * flask_session :=
  match find (login_match email_eq email) (users us) with
  | None => (LoginInvalid, fs)
  | Some u => (LoginSuccess u, mkFlaskSession (Some (user_id u)) (u_role u) (u_name u))
  end.

(** [POST /api/staff/logout]: [session.clear()]. *)
Definition staff_logout (fs : flask_session) : flask_session :=
  mkFlaskSession None None None.

Inductive me_result := MeUnauthorized | MeSuccess (uid : nat) (name role : option string).

(** [GET /api/me]. *)
Definition api_me (fs : flask_session) : me_result :=
  match fs_user_id fs with
  | None => MeUnauthorized
  | Some u => MeSuccess u (fs_name fs) (fs_role fs)
  end.

Inductive admin_result := AdminUnauthorized | AdminSuccess.

(** [data.get("role") or "staff"]. *)
Definition role_or_staff (role : option string) : string :=
  match role with
  | Some s => if String.eqb s "" then "staff" else s
  | None => "staff"
  end.

(** [POST /api/admin/users]: [INSERT INTO users (name, email, phone, role,
    department_id, is_active) VALUES (%s,%s,%s,%s,%s,1)]. *)
Definition admin_add_user (fs : flask_session) (name email phone : option string)
    (department_id : option nat) (role : option string) (us : user_store)
    : admin_result * user_store :=
  if negb (is_admin fs) then (AdminUnauthorized, us)
  else
    let r := role_or_staff role in
    (AdminSuccess,
     mkUserStore (app (users us)
                    [mkUser (next_user_id us) name email phone (Some r) department_id 1])
                 (S (next_user_id us))).

(** A JSON value as Python's [json] module decodes it; a float by its exact
    (double) value, arrays and objects as [JOther]. *)
Inductive json :=
| JNull
| JBool (b : bool)
| JInt (z : Z)
| JFloat (q : Q)
| JStr (s : string)
| JOther.

(** The numeric value of a [bool], [int] or [float]. *)
Definition py_num (v : json) : option Q :=
  match v with
  | JBool b => Some (if b then 1 else 0)%Q
  | JInt z => Some (inject_Z z)
  | JFloat q => Some q
  | _ => None
  end.

(** Python [a == b] on decoded JSON values. *)
Definition py_eq (a b : json) : bool :=
  match py_num a, py_num b with
  | Some x, Some y => Qeq_bool x y
  | _, _ =>
      match a, b with
      | JStr s, JStr t => String.eqb s t
      | JNull, JNull => true
      | _, _ => false
      end
  end.

(** [1 if data.get("is_active") in (1, "1", True, "true") else 0]. *)
Definition is_active_of (v : json) : nat :=
  if existsb (py_eq v) [JInt 1; JStr "1"; JBool true; JStr "true"] then 1 else 0.

(** [PUT /api/admin/users/<user_id>]: [UPDATE users SET name=%s, email=%s,
    phone=%s, department_id=%s, role=%s, is_active=%s WHERE id=%s], each
    value [data.get(...)] ([None] when missing). *)
Definition admin_update_user (fs : flask_session) (uid : nat)
    (name email phone : option string) (department_id : option nat)
    (role : option string) (is_active : json) (us : user_store)
    : admin_result * user_store :=
  if negb (is_admin fs) then (AdminUnauthorized, us)
  else
    (AdminSuccess,
     mkUserStore (map (fun u => if user_id u =? uid
                                then mkUser (user_id u) name email phone role department_id
                                            (is_active_of is_active)
                                else u) (users us))
                 (next_user_id us)).

(** [GET /api/admin/users]: [SELECT ... FROM users ORDER BY id]. *)
Definition admin_get_users (fs : flask_session) (us : user_store) : option (list user) :=
  if is_admin fs
  then Some (order_by (fun a b => user_id a <? user_id b) (users us))
  else None.

(* ------------------------------------------------------------------ *)
(** ** Everything that writes to the store *)

(** One atomic change of the store: a statement of a [create_token] loop, a
    whole call of an endpoint. *)
Inductive op :=
| OpAlloc (r : alloc_req) (today : date) (now : nat) (pc : alloc_pc)
| OpCreate (r : create_req) (today : date) (now : nat)
| OpCancel (tn : string) (now : nat)
| OpApprove (s : session) (tn : string)
| OpStatus (s : session) (tn new_status : string) (now : nat)
| OpCallNext (s : session) (d : nat) (D : option date) (today : date) (now : nat).

Definition apply_op (update_lastrowid : option nat) (o : op) (st : store) : store :=
  match o with
  | OpAlloc r today now pc => snd (alloc_step r today now pc st)
  | OpCreate r today now => snd (create_token today now r st)
  | OpCancel tn now => snd (cancel_token update_lastrowid tn now st)
  | OpApprove s tn => snd (approve_priority s tn st)
  | OpStatus s tn ns now => snd (update_status s tn ns now st)
  | OpCallNext s d D today now => snd (call_next s d D today now st)
  end.

Definition apply_ops (lr : option nat) (os : list op) (st : store) : store :=
  fold_left (fun acc o => apply_op lr o acc) os st.

(** Concurrent [create_token] calls: each caller is at some point of its loop
    and runs its next statement atomically; any other change of the store may
    come in between. *)
Record sys := mkSys { sys_store : store; callers : list (alloc_req * alloc_pc) }.

Inductive sys_step (lr : option nat) : sys -> sys -> Prop :=
| StepCaller st cs i r pc today now pc' st' :
    nth_error cs i = Some (r, pc) ->
    alloc_step r today now pc st = (pc', st') ->
    sys_step lr (mkSys st cs) (mkSys st' (firstn i cs ++ (r, pc') :: skipn (S i) cs)%list)
| StepOther st cs o :
    sys_step lr (mkSys st cs) (mkSys (apply_op lr o st) cs).

Inductive sys_steps (lr : option nat) : sys -> sys -> Prop :=
| StepsRefl s : sys_steps lr s s
| StepsCons s1 s2 s3 : sys_step lr s1 s2 -> sys_steps lr s2 s3 -> sys_steps lr s1 s3.

(** The [token_no] values in the store are pairwise distinct. *)
Definition tokens_unique (st : store) : Prop := NoDup (map token_no (tokens st)).

(** All callers start at the loop. *)
Definition sys_init (s : sys) : Prop :=
  tokens_unique (sys_store s) /\ Forall (fun c => snd c = ALoop 0) (callers s).

Definition pc_attempt (pc : alloc_pc) : nat :=
  match pc with
  | ALoop a | AInsert a _ | ARetry a _ => a
  | ADone _ => 0
  end.

(* ================================================================== *)
(** * Proofs *)

(* ------------------------------------------------------------------ *)
(** ** The [token_no] column only grows, without duplicates *)

Definition tns (st : store) : list string := map token_no (tokens st).

Definition store_grows (st st' : store) : Prop :=
  (tokens_unique st -> tokens_unique st') /\ incl (tns st) (tns st').

Lemma store_grows_refl st : store_grows st st.
Proof. split; [auto | apply incl_refl]. Qed.

Lemma store_grows_trans s1 s2 s3 :
  store_grows s1 s2 -> store_grows s2 s3 -> store_grows s1 s3.
Proof.
  intros [U1 I1] [U2 I2]; split; [auto | eapply incl_tran; eauto].
Qed.

Lemma store_grows_same st st' : tns st' = tns st -> store_grows st st'.
Proof.
  intros E; split; unfold tokens_unique; [|unfold incl]; fold (tns st) (tns st');
    rewrite E; auto.
Qed.

Lemma update_where_tns p f st :
  (forall t, token_no (f t) = token_no t) -> tns (update_where p f st) = tns st.
Proof.
  intros Hf; unfold tns, update_where; simpl.
  rewrite map_map; apply map_ext; intros t; destruct (p t); auto.
Qed.

Lemma insert_log_tns st tn ev a : tns (insert_log st tn ev a) = tns st.
Proof. reflexivity. Qed.

Lemma insert_token_spec st now nt st' :
  insert_token st now nt = Some st' ->
  tns st' = app (tns st) [n_token_no nt] /\ ~ In (n_token_no nt) (tns st).
Proof.
  unfold insert_token.
  destruct (existsb _ _) eqn:E; intros H; inversion H; subst; clear H.
  split.
  - unfold tns; simpl; rewrite map_app; reflexivity.
  - intros Hin; unfold tns in Hin; apply in_map_iff in Hin as [t [Ht Hin]].
    assert (existsb (fun t => String.eqb (token_no t) (n_token_no nt)) (tokens st) = true)
      as E'.
    { apply existsb_exists; exists t; split; [auto | apply String.eqb_eq; auto]. }
    congruence.
Qed.

Lemma store_grows_insert st now nt st' :
  insert_token st now nt = Some st' -> store_grows st st'.
Proof.
  intros H; apply insert_token_spec in H as [E Hn]; split; unfold tokens_unique;
    fold (tns st) (tns st'); rewrite E.
  - intros U; apply (Permutation_NoDup (Permutation_cons_append _ _)).
    constructor; auto.
  - intros x Hx; apply in_or_app; auto.
Qed.

Create HintDb grows.
Global Hint Resolve store_grows_refl : grows.

Ltac grows_same :=
  apply store_grows_same;
  unfold cancel_update, approve_update, complete_update, status_update;
  repeat (rewrite ?insert_log_tns; rewrite ?update_where_tns by reflexivity); reflexivity.

(** One statement of the allocation loop. *)
Lemma alloc_step_spec r today now pc st pc' st' :
  alloc_step r today now pc st = (pc', st') ->
  store_grows st st'
  /\ (forall t, pc' = ADone (Some t) ->
        pc = ADone (Some t) \/ (~ In t (tns st) /\ In t (tns st')))
  /\ (pc_attempt pc <= max_attempts -> pc_attempt pc' <= max_attempts).
Proof.
  destruct pc as [a|a s|a s|c]; simpl; intros H.
  - destruct (Nat.ltb_spec a max_attempts); inversion H; subst;
      (split; [auto with grows | split; intros; [discriminate | simpl in *; lia]]).
  - destruct (insert_token st now _) as [st1|] eqn:Ei; inversion H; subst.
    + pose proof (insert_token_spec _ _ _ _ Ei) as [E Hn]; simpl in *.
      split; [eapply store_grows_insert; eauto | split; [| simpl; lia]].
      intros t Ht; inversion Ht; subst; right; split; auto.
      rewrite E; apply in_or_app; right; left; auto.
    + split; [auto with grows | split; intros; [discriminate | simpl in *; lia]].
  - destruct (insert_token st now _) as [st1|] eqn:Ei; inversion H; subst.
    + pose proof (insert_token_spec _ _ _ _ Ei) as [E Hn]; simpl in *.
      split; [eapply store_grows_insert; eauto | split; [| simpl; lia]].
      intros t Ht; inversion Ht; subst; right; split; auto.
      rewrite E; apply in_or_app; right; left; auto.
    + split; [auto with grows | split; intros; [discriminate | simpl in *; lia]].
  - inversion H; subst; split; [auto with grows | split; intros; auto].
Qed.

Lemma run_alloc_spec fuel r today now pc st pc' st' :
  run_alloc fuel r today now pc st = (pc', st') ->
  store_grows st st'
  /\ (forall t, pc' = ADone (Some t) ->
        pc = ADone (Some t) \/ (~ In t (tns st) /\ In t (tns st'))).
Proof.
  revert pc st; induction fuel as [|f IH]; intros pc st H; simpl in H.
  - inversion H; subst; split; auto with grows.
  - assert (Hgen : forall pc1 st1, alloc_step r today now pc st = (pc1, st1) ->
              run_alloc f r today now pc1 st1 = (pc', st') ->
              store_grows st st'
              /\ (forall t, pc' = ADone (Some t) ->
                    pc = ADone (Some t) \/ (~ In t (tns st) /\ In t (tns st')))).
    { intros pc1 st1 E1 E2.
      destruct (alloc_step_spec _ _ _ _ _ _ _ E1) as [G1 [D1 _]].
      destruct (IH _ _ E2) as [G2 D2].
      split; [eapply store_grows_trans; eauto|].
      intros t Ht; destruct (D2 t Ht) as [Hd|[Hn Hi]].
      - destruct (D1 t Hd) as [Hp|[Hn Hi]]; [left; auto|right; split; auto].
        destruct G2 as [_ I2]; auto.
      - right; split; auto; intros Hin; apply Hn; destruct G1 as [_ I1]; auto. }
    destruct pc as [a|a s|a s|c];
      [ .. | inversion H; subst; split; auto with grows];
      destruct (alloc_step r today now _ st) as [pc1 st1] eqn:E1; eapply Hgen; eauto.
Qed.

Lemma create_token_grows today now r st :
  store_grows st (snd (create_token today now r st)).
Proof.
  unfold create_token.
  destruct (find_department st (c_dept_id r)) as [dp|]; [|apply store_grows_refl].
  match goal with |- context [run_alloc ?f ?r ?d ?n ?pc ?s] =>
    destruct (run_alloc f r d n pc s) as [pc' st'] eqn:E end.
  apply run_alloc_spec in E as [G _].
  destruct pc' as [| | |[tn|]]; auto.
  destruct (pos_eta st' tn) as [[p e]|]; auto.
Qed.

Lemma call_next_token_tns d D act now st :
  tns (call_next_token d D act now st) = tns st.
Proof.
  unfold call_next_token; destruct (top_waiting st d D); auto.
  rewrite insert_log_tns, update_where_tns; reflexivity.
Qed.

Lemma apply_op_grows lr o st : store_grows st (apply_op lr o st).
Proof.
  destruct o as [r today now pc|r today now|tn now|s tn|s tn ns now|s d D today now];
    cbn [apply_op].
  - destruct (alloc_step r today now pc st) as [pc' st'] eqn:E.
    apply alloc_step_spec in E as [G _]; exact G.
  - apply create_token_grows.
  - unfold cancel_token; destruct lr as [[|k]|]; simpl; grows_same.
  - unfold approve_priority; destruct (sess_user_id s); simpl; grows_same.
  - unfold update_status; destruct (sess_user_id s); simpl; [|grows_same].
    destruct (parse_new_status ns) as [[]|]; simpl; grows_same.
  - unfold call_next; destruct (sess_user_id s); simpl; [|grows_same].
    apply store_grows_same; apply call_next_token_tns.
Qed.

(** Replacing the [i]-th caller. *)
Lemma nth_error_replace {A} (l : list A) i x j :
  i < List.length l ->
  nth_error (firstn i l ++ x :: skipn (S i) l)%list j =
  if j =? i then Some x else nth_error l j.
Proof.
  revert i j; induction l as [|a l IH]; intros i j Hi; simpl in Hi; [lia|].
  destruct i as [|i]; destruct j as [|j]; simpl; auto.
  rewrite IH by lia; reflexivity.
Qed.

(** Invariant of concurrent allocation. *)
Definition sys_inv (s : sys) : Prop :=
  tokens_unique (sys_store s)
  /\ (forall i r t, nth_error (callers s) i = Some (r, ADone (Some t)) ->
        In t (tns (sys_store s)))
  /\ (forall i j r1 r2 t, i <> j ->
        nth_error (callers s) i = Some (r1, ADone (Some t)) ->
        nth_error (callers s) j = Some (r2, ADone (Some t)) -> False)
  /\ (forall i r pc, nth_error (callers s) i = Some (r, pc) ->
        pc_attempt pc <= max_attempts).

Lemma sys_init_inv s : sys_init s -> sys_inv s.
Proof.
  intros [U F]; rewrite Forall_forall in F.
  assert (HL : forall i r pc, nth_error (callers s) i = Some (r, pc) -> pc = ALoop 0).
  { intros i r pc H; apply nth_error_In in H; apply F in H; auto. }
  repeat split; auto.
  - intros i r t H; apply HL in H; discriminate.
  - intros i j r1 r2 t _ H; apply HL in H; discriminate.
  - intros i r pc H; apply HL in H; subst; simpl; lia.
Qed.

Lemma sys_step_inv lr s s' : sys_inv s -> sys_step lr s s' -> sys_inv s'.
Proof.
  intros [U [IN [DIS AT]]] H; destruct H as [st cs i r pc today now pc' st' Hi Hs|st cs o];
    simpl in *.
  - destruct (alloc_step_spec _ _ _ _ _ _ _ Hs) as [[GU GI] [D A]].
    assert (Hlen : i < List.length cs) by (apply nth_error_Some; congruence).
    assert (Hn : forall j, nth_error (firstn i cs ++ (r, pc') :: skipn (S i) cs)%list j =
                 if j =? i then Some (r, pc') else nth_error cs j)
      by (intros; apply nth_error_replace; auto).
    repeat split; simpl.
    + auto.
    + intros j r0 t Hj; rewrite Hn in Hj.
      destruct (Nat.eqb_spec j i) as [->|Hne].
      * inversion Hj; subst.
        destruct (D t eq_refl) as [->|[_ Hin]]; [apply GI; eapply IN; eauto | auto].
      * simpl in Hj; apply GI; eapply IN; eauto.
    + intros j k r1 r2 t Hjk Hj Hk; rewrite Hn in Hj, Hk.
      destruct (Nat.eqb_spec j i) as [->|Hj'], (Nat.eqb_spec k i) as [->|Hk'];
        simpl in Hj, Hk.
      * auto.
      * inversion Hj; subst.
        destruct (D t eq_refl) as [->|[Hnot _]]; [eapply DIS; eauto|].
        apply Hnot; eapply IN; eauto.
      * inversion Hk; subst.
        destruct (D t eq_refl) as [->|[Hnot _]]; [eapply DIS; eauto|].
        apply Hnot; eapply IN; eauto.
      * exact (DIS j k r1 r2 t Hjk Hj Hk).
    + intros j r0 pc0 Hj; rewrite Hn in Hj.
      destruct (Nat.eqb_spec j i) as [->|Hne].
      * inversion Hj; subst; apply A; eapply AT; eauto.
      * simpl in Hj; eapply AT; eauto.
  - destruct (apply_op_grows lr o st) as [GU GI].
    repeat split; auto.
    intros; apply GI; eapply IN; eauto.
Qed.

Lemma sys_steps_inv lr s s' : sys_inv s -> sys_steps lr s s' -> sys_inv s'.
Proof.
  intros Hi H; induction H; auto.
  apply IHsys_steps; eapply sys_step_inv; eauto.
Qed.

Lemma fold_max_spec (l : list nat) (a : nat) :
  a <= fold_left Nat.max l a
  /\ (forall x, In x l -> x <= fold_left Nat.max l a)
  /\ (fold_left Nat.max l a = a \/ In (fold_left Nat.max l a) l).
Proof.
  revert a; induction l as [|x l IH]; intros a; simpl.
  - split; [lia | split; [tauto | auto]].
  - destruct (IH (Nat.max a x)) as [H1 [H2 H3]].
    split; [lia|split].
    + intros y [<-|Hy]; [lia | auto].
    + destruct H3 as [H3|H3]; [|auto].
      rewrite H3; destruct (Nat.max_spec a x) as [[_ ->]|[_ ->]]; auto.
Qed.

(* ------------------------------------------------------------------ *)
(** ** Scenario data *)

Definition demo_departments : list department :=
  [mkDepartment 1 (Some "CARD") (Some 10); mkDepartment 2 (Some "NEUR") None].

Definition demo_store : store := mkStore [] demo_departments [] 1.

Definition jan1 : date := mkDate 2024 1 1.

Definition walk_in (d : nat) : create_req := mkCreateReq "P" "555" d None false None.

(** The scheduler picks caller [i], which runs its next statement. *)
Definition run_caller (s : sys) (i : nat) (today : date) (now : nat) : sys :=
  match nth_error (callers s) i with
  | None => s
  | Some (r, pc) =>
      let (pc', st') := alloc_step r today now pc (sys_store s) in
      mkSys st' (firstn i (callers s) ++ (r, pc') :: skipn (S i) (callers s))%list
  end.

Lemma run_caller_step lr s i today now :
  nth_error (callers s) i <> None -> sys_step lr s (run_caller s i today now).
Proof.
  unfold run_caller; destruct s as [st cs]; simpl.
  destruct (nth_error cs i) as [[r pc]|] eqn:E; [intros _|congruence].
  destruct (alloc_step r today now pc st) as [pc' st'] eqn:Es.
  eapply StepCaller; eauto.
Qed.

Lemma sys_steps_snoc lr s1 s2 s3 :
  sys_steps lr s1 s2 -> sys_step lr s2 s3 -> sys_steps lr s1 s3.
Proof.
  induction 1 as [s|s1 s2 s3' H12 H23 IH]; intros Hl.
  - eapply StepsCons; [exact Hl | apply StepsRefl].
  - eapply StepsCons; [exact H12 | auto].
Qed.

Definition race_callers : list (alloc_req * alloc_pc) :=
  [(mkAllocReq "CARD" "P" "555" 1 jan1 false "Visit", ALoop 0);
   (mkAllocReq "CARD" "Q" "556" 1 jan1 false "Visit", ALoop 0)].

Definition race_final : sys :=
  let s1 := run_caller (mkSys demo_store race_callers) 0 jan1 100 in
  let s2 := run_caller s1 1 jan1 100 in
  let s3 := run_caller s2 0 jan1 100 in
  let s4 := run_caller s3 1 jan1 100 in
  run_caller s4 1 jan1 101.

Lemma race_final_steps : sys_steps None (mkSys demo_store race_callers) race_final.
Proof.
  unfold race_final; cbv zeta.
  repeat (eapply sys_steps_snoc; [| apply run_caller_step; vm_compute; congruence]).
  apply StepsRefl.
Qed.

(* ------------------------------------------------------------------ *)
(** ** C1: ticket numbers are unique; the loop gives up after 8 attempts *)

(** Modelled from the spec: the unique key on [token_no] is not in src/.
    C1. Any interleaving of concurrent [create_token] loops, statement by
    statement and with any other endpoint running in between, keeps the
    [token_no] column free of duplicates, and two callers that obtained a
    ticket number obtained different ones. No caller goes beyond 8 attempts;
    once 8 attempts are spent the loop exits with no ticket (which
    [create_token] reports as the 500 "Could not generate unique token"), and a
    ticket number returned by [create_token] was not in the store before the
    call and is in it after. *)
Theorem create_token_unique_ticket_no (lr : option nat) (s0 s : sys)
  (Hinit : sys_init s0) (Hrun : sys_steps lr s0 s) :
  tokens_unique (sys_store s)
  /\ (forall i j r1 r2 t, i <> j ->
        nth_error (callers s) i = Some (r1, ADone (Some t)) ->
        nth_error (callers s) j = Some (r2, ADone (Some t)) -> False)
  /\ (forall i r pc, nth_error (callers s) i = Some (r, pc) ->
        pc_attempt pc <= max_attempts)
  /\ (forall r today now st,
        alloc_step r today now (ALoop max_attempts) st = (ADone None, st))
  /\ (forall today now r st tn p e st',
        create_token today now r st = (CreateSuccess tn p e, st') ->
        ~ In tn (tns st) /\ In tn (tns st')).
Proof.
  destruct (sys_steps_inv lr s0 s (sys_init_inv s0 Hinit) Hrun) as [U [_ [DIS AT]]].
  split; [exact U|split; [exact DIS|split; [exact AT|split]]].
  - intros; reflexivity.
  - intros today now r st tn p e st' H; unfold create_token in H.
    destruct (find_department st (c_dept_id r)) as [dp|]; [|discriminate].
    match type of H with context [run_alloc ?f ?r ?d ?n ?pc ?s] =>
      destruct (run_alloc f r d n pc s) as [pc' st1] eqn:E end.
    apply run_alloc_spec in E as [_ D].
    destruct pc' as [| | |[t|]]; try discriminate.
    assert (t = tn /\ st1 = st') as [-> ->]
      by (destruct (pos_eta st1 t) as [[? ?]|]; inversion H; auto).
    destruct (D tn eq_refl) as [Hc|Hc]; [discriminate|exact Hc].
Qed.

(** Both callers read the same candidate 1; the second one's INSERT collides
    and its handler inserts with suffix 2. *)
Lemma create_token_unique_ticket_no_witness :
  sys_init (mkSys demo_store race_callers)
  /\ nth_error (callers race_final) 0
       = Some (mkAllocReq "CARD" "P" "555" 1 jan1 false "Visit", ADone (Some "CARD-001-20240101"))
  /\ nth_error (callers race_final) 1
       = Some (mkAllocReq "CARD" "Q" "556" 1 jan1 false "Visit", ADone (Some "CARD-002-20240101"))
  /\ tokens_unique (sys_store race_final).
Proof.
  assert (Hi : sys_init (mkSys demo_store race_callers)).
  { split; [constructor | repeat constructor]. }
  split; [exact Hi | split; [reflexivity | split; [reflexivity |]]].
  exact (proj1 (create_token_unique_ticket_no None _ _ Hi race_final_steps)).
Defined.

(* ------------------------------------------------------------------ *)
(** ** C3: the candidate suffix *)

(** C3 (as stated, refuted). After a NEUR ticket (id 1) and a first CARD
    ticket (id 2, [CARD-001-20240101]) for 2024-01-01, the candidate suffix
    for the next CARD ticket of that day is 3, not 1 + count = 2 (nor the
    largest CARD suffix so far plus 1 = 2): the second CARD ticket of the
    day is [CARD-003-20240101]. *)
Lemma candidate_suffix_not_count :
  let st1 := snd (create_token jan1 100 (walk_in 2) demo_store) in
  let st2 := snd (create_token jan1 101 (walk_in 1) st1) in
  select_suffix st2 1 jan1 = 3
  /\ 1 + List.length (filter (same_pair 1 jan1) (tokens st2)) = 2
  /\ option_map token_no (find (same_pair 1 jan1) (tokens st2)) = Some "CARD-001-20240101"
  /\ fst (create_token jan1 102 (walk_in 1) st2) = CreateSuccess "CARD-003-20240101" 1 (Some 10).
Proof. vm_compute; repeat split. Qed.

(** C3 (amended). The first statement of every attempt computes the
    candidate [COALESCE(MAX(id),0) + 1] over the tickets of the pair: it
    exceeds the table-wide [id] of every ticket of the pair, it is 1 (the
    suffix [001]) when the pair has no ticket, and otherwise it is the largest
    such [id] plus 1. *)
Theorem create_token_candidate_suffix r today now attempt st :
  attempt < max_attempts ->
  alloc_step r today now (ALoop attempt) st
    = (AInsert (S attempt) (select_suffix st (a_dept_id r) (a_appointment_date r)), st)
  /\ (forall t, In t (tokens st) -> same_pair (a_dept_id r) (a_appointment_date r) t = true ->
        id t < select_suffix st (a_dept_id r) (a_appointment_date r))
  /\ (filter (same_pair (a_dept_id r) (a_appointment_date r)) (tokens st) = [] ->
        select_suffix st (a_dept_id r) (a_appointment_date r) = 1
        /\ zfill 3 (str (select_suffix st (a_dept_id r) (a_appointment_date r))) = "001")
  /\ (filter (same_pair (a_dept_id r) (a_appointment_date r)) (tokens st) <> [] ->
        exists t, In t (tokens st)
          /\ same_pair (a_dept_id r) (a_appointment_date r) t = true
          /\ select_suffix st (a_dept_id r) (a_appointment_date r) = id t + 1).
Proof.
  intros Ha.
  set (d := a_dept_id r); set (D := a_appointment_date r).
  assert (Hs : select_suffix st d D
               = fold_left Nat.max (map id (filter (same_pair d D) (tokens st))) 0 + 1)
    by reflexivity.
  destruct (fold_max_spec (map id (filter (same_pair d D) (tokens st))) 0) as [_ [Hge Hin]].
  split; [|split; [|split]].
  - simpl; apply Nat.ltb_lt in Ha; rewrite Ha; reflexivity.
  - intros t Ht Hp; rewrite Hs.
    assert (In (id t) (map id (filter (same_pair d D) (tokens st))))
      by (apply in_map; apply filter_In; auto).
    specialize (Hge _ H); lia.
  - intros He; rewrite Hs, He; split; reflexivity.
  - intros Hne; destruct Hin as [H0|H0].
    + destruct (filter (same_pair d D) (tokens st)) as [|t l] eqn:Ef; [congruence|].
      exists t.
      assert (In t (filter (same_pair d D) (tokens st))) as Ht by (rewrite Ef; left; auto).
      apply filter_In in Ht as [Ht1 Ht2]; split; [auto|split; [auto|]].
      assert (Hid : In (id t) (map id (t :: l))) by (left; auto).
      specialize (Hge _ Hid); rewrite Hs; lia.
    + apply in_map_iff in H0 as [t [Ht Hin']]; apply filter_In in Hin' as [Ht1 Ht2].
      exists t; split; [auto|split; [auto|]]; rewrite Hs, <- Ht; reflexivity.
Qed.

Lemma create_token_candidate_suffix_witness :
  0 < max_attempts
  /\ alloc_step (mkAllocReq "CARD" "P" "555" 1 jan1 false "Visit") jan1 100 (ALoop 0) demo_store
     = (AInsert 1 1, demo_store).
Proof.
  split; [unfold max_attempts; lia|].
  refine (eq_trans (proj1 (create_token_candidate_suffix
            (mkAllocReq "CARD" "P" "555" 1 jan1 false "Visit") jan1 100 0 demo_store _)) _);
    [unfold max_attempts; lia | reflexivity].
Defined.

(* ------------------------------------------------------------------ *)
(** ** C10: the date in the ticket number *)

(** A Python [date] is in range. *)
Definition valid_date (d : date) : Prop :=
  1 <= year d < 10 ^ 4 /\ 1 <= month d <= 12 /\ 1 <= day d <= 31.

Lemma digit_inj a b : digit a = digit b -> a mod 10 = b mod 10.
Proof.
  unfold digit; intros H; apply (f_equal nat_of_ascii) in H.
  pose proof (Nat.mod_upper_bound a 10); pose proof (Nat.mod_upper_bound b 10).
  rewrite !nat_ascii_embedding in H by lia; lia.
Qed.

Lemma string_length_append (s t : string) :
  String.length (s ++ t) = String.length s + String.length t.
Proof. induction s as [|c s IH]; simpl; auto. Qed.

Lemma digits_fixed_length w n : String.length (digits_fixed w n) = w.
Proof.
  revert n; induction w as [|w IH]; intros n; simpl; auto.
  rewrite string_length_append, IH; simpl; lia.
Qed.

Lemma append_inj (s1 s2 t1 t2 : string) :
  s1 ++ t1 = s2 ++ t2 -> String.length s1 = String.length s2 -> s1 = s2 /\ t1 = t2.
Proof.
  revert s2; induction s1 as [|c s1 IH]; intros [|c' s2] H Hl; simpl in *;
    try discriminate; auto.
  inversion H; subst; destruct (IH s2) as [-> ->]; auto.
Qed.

Lemma digits_fixed_inj w a b :
  digits_fixed w a = digits_fixed w b -> a mod 10 ^ w = b mod 10 ^ w.
Proof.
  revert a b; induction w as [|w IH]; intros a b H; cbn [digits_fixed] in H.
  - reflexivity.
  - apply append_inj in H as [H1 H2]; [|rewrite !digits_fixed_length; reflexivity].
    inversion H2 as [Hd]; apply digit_inj in Hd.
    apply IH in H1.
    rewrite Nat.pow_succ_r', !Nat.Div0.mod_mul_r.
    rewrite Hd, H1; reflexivity.
Qed.

Lemma strftime_ymd_inj a b :
  valid_date a -> valid_date b -> strftime_ymd a = strftime_ymd b -> a = b.
Proof.
  intros Ha Hb H; unfold strftime_ymd in H.
  apply append_inj in H as [Hy H]; [|rewrite !digits_fixed_length; reflexivity].
  apply append_inj in H as [Hm Hd]; [|rewrite !digits_fixed_length; reflexivity].
  apply digits_fixed_inj in Hy, Hm, Hd.
  destruct a as [ya ma da], b as [yb mb db]; unfold valid_date in *; cbn [year month day] in *.
  assert (E2 : 10 ^ 2 = 100) by reflexivity.
  rewrite !Nat.mod_small in Hy, Hm, Hd by (rewrite ?E2; lia).
  subst; reflexivity.
Qed.

(** Where the loop of one [create_token] call alone can be: every attempt
    reads the same candidate [c] since failed INSERTs change nothing. *)
Definition seq_ok (r : alloc_req) (today : date) (st : store) (pc : alloc_pc) (st' : store) : Prop :=
  let c := select_suffix st (a_dept_id r) (a_appointment_date r) in
  match pc with
  | ALoop _ => st' = st
  | AInsert _ s => s = c /\ st' = st
  | ARetry _ s => s = S c /\ st' = st
  | ADone None => True
  | ADone (Some t) => exists s, t = format_token (a_prefix r) s today /\ (s = c \/ s = S c)
  end.

Lemma seq_ok_step r today now st pc st' pc2 st2 :
  seq_ok r today st pc st' -> alloc_step r today now pc st' = (pc2, st2) ->
  seq_ok r today st pc2 st2.
Proof.
  destruct pc as [a|a s|a s|[t|]]; simpl; intros Hok H.
  - subst; destruct (a <? max_attempts); inversion H; subst; simpl; auto.
  - destruct Hok as [-> ->].
    destruct (insert_token st now _); inversion H; subst; simpl; eauto.
  - destruct Hok as [-> ->].
    destruct (insert_token st now _); inversion H; subst; simpl; eauto.
  - inversion H; subst; simpl; eauto.
  - inversion H; subst; simpl; auto.
Qed.

Lemma seq_ok_run fuel r today now st pc st' pc2 st2 :
  seq_ok r today st pc st' -> run_alloc fuel r today now pc st' = (pc2, st2) ->
  seq_ok r today st pc2 st2.
Proof.
  revert pc st'; induction fuel as [|f IH]; intros pc st' Hok H; simpl in H.
  - inversion H; subst; auto.
  - assert (Hgen : forall pc1 st1, alloc_step r today now pc st' = (pc1, st1) ->
              run_alloc f r today now pc1 st1 = (pc2, st2) -> seq_ok r today st pc2 st2)
      by (intros pc1 st1 E1 E2; eapply IH; [eapply seq_ok_step; eauto | exact E2]).
    destruct pc as [a|a s|a s|c];
      [ .. | inversion H; subst; auto];
      destruct (alloc_step r today now _ st') as [pc1 st1] eqn:E; eapply Hgen; eauto.
Qed.

(** C10. A ticket number that [create_token] returns is
    [prefix-SSS-YYYYMMDD] with [YYYYMMDD] the day [date.today()] of the call,
    while its suffix is the candidate computed over the tickets of the
    requested [appointment_date] (or that candidate plus 1, the retry of the
    [IntegrityError] handler); a missing [appointment_date] is today, and the
    date in the ticket number is the appointment date's exactly when the
    appointment is for today. *)
Theorem create_token_ticket_date today now r st tn p e st'
  (Hc : create_token today now r st = (CreateSuccess tn p e, st'))
  (Hvt : valid_date today)
  (Hvd : valid_date (effective_date (c_appointment_date r) today)) :
  (exists dp s,
      find_department st (c_dept_id r) = Some dp
      /\ tn = prefix_of dp ++ "-" ++ zfill 3 (str s) ++ "-" ++ strftime_ymd today
      /\ (s = select_suffix st (c_dept_id r) (effective_date (c_appointment_date r) today)
          \/ s = S (select_suffix st (c_dept_id r) (effective_date (c_appointment_date r) today))))
  /\ (c_appointment_date r = None -> effective_date (c_appointment_date r) today = today)
  /\ (strftime_ymd today = strftime_ymd (effective_date (c_appointment_date r) today)
      <-> effective_date (c_appointment_date r) today = today).
Proof.
  split; [|split].
  - unfold create_token in Hc.
    destruct (find_department st (c_dept_id r)) as [dp|]; [|discriminate].
    match type of Hc with context [run_alloc ?f ?ar ?d ?n ?pc ?s] =>
      destruct (run_alloc f ar d n pc s) as [pc' st1] eqn:E;
      assert (Hok : seq_ok ar d s pc' st1)
        by (eapply seq_ok_run; [|exact E]; reflexivity) end.
    destruct pc' as [| | |[t|]]; try discriminate.
    assert (t = tn) as ->
      by (destruct (pos_eta st1 t) as [[? ?]|]; inversion Hc; auto).
    destruct Hok as [s [Ht Hs]]; exists dp, s; split; [reflexivity|split; [exact Ht|exact Hs]].
  - intros ->; reflexivity.
  - split; [intros H; symmetry; apply strftime_ymd_inj; auto | intros ->; reflexivity].
Qed.

Lemma create_token_ticket_date_witness :
  valid_date jan1 /\ valid_date (mkDate 2024 1 2)
  /\ fst (create_token jan1 100 (mkCreateReq "P" "555" 1 (Some (mkDate 2024 1 2)) false None) demo_store)
     = CreateSuccess "CARD-001-20240101" 0 (Some 0)
  /\ (strftime_ymd jan1 = strftime_ymd (mkDate 2024 1 2) <-> mkDate 2024 1 2 = jan1).
Proof.
  assert (V1 : valid_date jan1) by (unfold valid_date; simpl; lia).
  assert (V2 : valid_date (mkDate 2024 1 2)) by (unfold valid_date; simpl; lia).
  split; [exact V1|split; [exact V2|split; [vm_compute; reflexivity|]]].
  destruct (create_token jan1 100 (mkCreateReq "P" "555" 1 (Some (mkDate 2024 1 2)) false None)
              demo_store) as [res st'] eqn:E.
  assert (Hr : res = CreateSuccess "CARD-001-20240101" 0 (Some 0))
    by (vm_compute in E; inversion E; reflexivity).
  subst res.
  exact (proj2 (proj2 (create_token_ticket_date _ _ _ _ _ _ _ _ E V1 V2))).
Defined.

(* ------------------------------------------------------------------ *)
(** ** C2, C8: position and ETA *)

(** The ranking of the spec, in its words: [y] is a Waiting ticket of the
    same department and date as [x] with an approved priority where [x] has
    none, or the same [priority_approved] and an earlier [created_at]. *)
Definition spec_ahead (x y : token) : bool :=
  (dept_id y =? dept_id x) && date_eqb (appointment_date y) (appointment_date x)
  && is_status Waiting y
  && ((priority_approved y && negb (priority_approved x))
      || (Bool.eqb (priority_approved y) (priority_approved x)
          && (created_at y <? created_at x))).

Definition spec_position_ahead (st : store) (x : token) : nat :=
  List.length (filter (spec_ahead x) (tokens st)).

Lemma ahead_sql_spec x y : ahead_sql x y = spec_ahead x y.
Proof.
  unfold ahead_sql, spec_ahead, is_status.
  destruct (priority_approved x), (priority_approved y); simpl;
    rewrite ?andb_false_r, ?andb_true_r, ?orb_false_r; reflexivity.
Qed.

Lemma position_ahead_spec st x : position_ahead st x = spec_position_ahead st x.
Proof.
  unfold position_ahead, spec_position_ahead; f_equal; apply filter_ext; apply ahead_sql_spec.
Qed.

Lemma find_token_unique st x :
  tokens_unique st -> In x (tokens st) -> find_token st (token_no x) = Some x.
Proof.
  unfold tokens_unique, find_token; destruct st as [ts ds ls n]; simpl.
  induction ts as [|t ts IH]; simpl; intros U Hin; [contradiction|].
  inversion U as [|? ? Hn U']; subst.
  destruct Hin as [->|Hin]; [rewrite String.eqb_refl; reflexivity|].
  destruct (String.eqb_spec (token_no t) (token_no x)) as [E|E]; auto.
  exfalso; apply Hn; rewrite E; apply in_map; auto.
Qed.

Lemma create_token_pos_eta today now r st0 tn p e st :
  create_token today now r st0 = (CreateSuccess tn p e, st) ->
  pos_eta st tn = None \/ pos_eta st tn = Some (p, e).
Proof.
  unfold create_token; intros Hc.
  destruct (find_department st0 (c_dept_id r)) as [dp|]; [|discriminate].
  match type of Hc with context [run_alloc ?f ?ar ?d ?n ?pc ?s] =>
    destruct (run_alloc f ar d n pc s) as [pc' st1] eqn:E end.
  destruct pc' as [| | |[t|]]; try discriminate.
  destruct (pos_eta st1 t) as [[p' e']|] eqn:Ep; inversion Hc; subst; auto.
Qed.

Lemma get_token_found st x :
  tokens_unique st -> In x (tokens st) ->
  get_token st (token_no x)
  = GetSuccess x (position_ahead st x)
      (option_map (fun a => a * position_ahead st x) (service_time st (dept_id x))).
Proof.
  intros U Hin; unfold get_token, pos_eta; rewrite (find_token_unique st x U Hin); reflexivity.
Qed.

(** C2. For a stored ticket [X] (ticket numbers being unique), the
    [position_ahead] of [get_token] and of the [create_token] call that
    created [X] is the number of Waiting tickets of [X]'s department and
    date with an approved priority where [X] has none, or the same
    [priority_approved] and an earlier [created_at]. *)
Theorem position_ahead_ranking st x
  (HU : tokens_unique st) (Hin : In x (tokens st)) :
  (exists e, get_token st (token_no x) = GetSuccess x (spec_position_ahead st x) e)
  /\ (forall today now r st0 p e,
        create_token today now r st0 = (CreateSuccess (token_no x) p e, st) ->
        p = spec_position_ahead st x).
Proof.
  split.
  - eexists; rewrite (get_token_found st x HU Hin), position_ahead_spec; reflexivity.
  - intros today now r st0 p e Hc.
    destruct (create_token_pos_eta _ _ _ _ _ _ _ _ Hc) as [H|H];
      unfold pos_eta in H; rewrite (find_token_unique st x HU Hin) in H;
      [discriminate|].
    inversion H; subst; apply position_ahead_spec.
Qed.

(** C8. For a stored ticket [X] of an existing department, the ETA of
    [get_token] and of the [create_token] call that created [X] is its
    position times the department's [avg_service_time], 5 when that column
    is NULL; it is computed from the store the query runs on. *)
Theorem eta_is_position_times_service_time st x dp
  (HU : tokens_unique st) (Hin : In x (tokens st))
  (Hd : find_department st (dept_id x) = Some dp) :
  let avg := match avg_service_time dp with Some a => a | None => 5 end in
  get_token st (token_no x)
    = GetSuccess x (position_ahead st x) (Some (position_ahead st x * avg))
  /\ (forall today now r st0 p e,
        create_token today now r st0 = (CreateSuccess (token_no x) p e, st) ->
        e = Some (p * avg)).
Proof.
  intros avg; split.
  - rewrite (get_token_found st x HU Hin); unfold service_time; rewrite Hd; simpl.
    rewrite Nat.mul_comm; reflexivity.
  - intros today now r st0 p e Hc.
    destruct (create_token_pos_eta _ _ _ _ _ _ _ _ Hc) as [H|H];
      unfold pos_eta in H; rewrite (find_token_unique st x HU Hin) in H;
      [discriminate|].
    unfold service_time in H; rewrite Hd in H; simpl in H; inversion H; subst.
    rewrite Nat.mul_comm; reflexivity.
Qed.

(** The scenario of the spec: three CARD tickets on 2024-01-01, the third
    with a priority request that staff approve. *)
Definition staff : session := mkSession (Some 1) (Some "Dr. A").

Definition scenario_store : store :=
  let st1 := snd (create_token jan1 100 (walk_in 1) demo_store) in
  let st2 := snd (create_token jan1 101 (walk_in 1) st1) in
  let st3 := snd (create_token jan1 102 (mkCreateReq "R" "557" 1 None true None) st2) in
  snd (approve_priority staff "CARD-003-20240101" st3).

Definition dummy_token : token :=
  mkToken 0 "" "" "" 0 jan1 false false Waiting "" 0 None None None None.

Lemma scenario_unique : tokens_unique scenario_store.
Proof. vm_compute; repeat constructor; simpl; intuition discriminate. Qed.

Lemma position_ahead_ranking_witness :
  In (nth 0 (tokens scenario_store) dummy_token) (tokens scenario_store)
  /\ spec_position_ahead scenario_store (nth 0 (tokens scenario_store) dummy_token) = 1
  /\ exists e, get_token scenario_store (token_no (nth 0 (tokens scenario_store) dummy_token))
               = GetSuccess (nth 0 (tokens scenario_store) dummy_token) 1 e.
Proof.
  assert (Hin : In (nth 0 (tokens scenario_store) dummy_token) (tokens scenario_store))
    by (apply nth_In; vm_compute; lia).
  assert (Hp : spec_position_ahead scenario_store (nth 0 (tokens scenario_store) dummy_token) = 1)
    by (vm_compute; reflexivity).
  split; [exact Hin|split; [exact Hp|]].
  rewrite <- Hp; exact (proj1 (position_ahead_ranking _ _ scenario_unique Hin)).
Defined.

Lemma eta_is_position_times_service_time_witness :
  In (nth 1 (tokens scenario_store) dummy_token) (tokens scenario_store)
  /\ find_department scenario_store 1 = Some (mkDepartment 1 (Some "CARD") (Some 10))
  /\ get_token scenario_store (token_no (nth 1 (tokens scenario_store) dummy_token))
     = GetSuccess (nth 1 (tokens scenario_store) dummy_token) 2 (Some 20).
Proof.
  assert (Hin : In (nth 1 (tokens scenario_store) dummy_token) (tokens scenario_store))
    by (apply nth_In; vm_compute; lia).
  assert (Hd : find_department scenario_store (dept_id (nth 1 (tokens scenario_store) dummy_token))
               = Some (mkDepartment 1 (Some "CARD") (Some 10))) by (vm_compute; reflexivity).
  split; [exact Hin|split; [exact Hd|]].
  rewrite (proj1 (eta_is_position_times_service_time _ _ _ scenario_unique Hin Hd)).
  vm_compute; reflexivity.
Defined.

(* ------------------------------------------------------------------ *)
(** ** C9: priority_approved implies priority_requested *)

Definition prio_inv (st : store) : Prop :=
  forall t, In t (tokens st) -> priority_approved t = true -> priority_requested t = true.

(** [st'] keeps the invariant of [st] and every approved ticket of [st]
    stays approved in [st']. *)
Definition prio_step (st st' : store) : Prop :=
  (prio_inv st -> prio_inv st')
  /\ (forall t, In t (tokens st) -> priority_approved t = true ->
        exists u, In u (tokens st') /\ id u = id t /\ priority_approved u = true).

Lemma prio_step_refl st : prio_step st st.
Proof. split; auto; intros t Ht Ha; exists t; auto. Qed.

Lemma prio_step_trans s1 s2 s3 : prio_step s1 s2 -> prio_step s2 s3 -> prio_step s1 s3.
Proof.
  intros [I1 M1] [I2 M2]; split; auto.
  intros t Ht Ha; destruct (M1 t Ht Ha) as [u [Hu [Hi Hau]]].
  destruct (M2 u Hu Hau) as [v [Hv [Hi' Hav]]]; exists v; split; [auto|split; congruence].
Qed.

Lemma prio_step_same_tokens st st' : tokens st' = tokens st -> prio_step st st'.
Proof.
  intros E; split; [unfold prio_inv; rewrite E; auto|].
  intros t Ht Ha; exists t; rewrite E; auto.
Qed.

Lemma prio_step_update p f st :
  (forall t, p t = true ->
     id (f t) = id t /\ priority_requested (f t) = priority_requested t
     /\ (priority_approved t = true -> priority_approved (f t) = true)
     /\ (priority_approved (f t) = true -> priority_approved t = true \/ priority_requested t = true)) ->
  prio_step st (update_where p f st).
Proof.
  intros Hf; split.
  - intros Hi u Hu Ha; unfold update_where in Hu; simpl in Hu.
    apply in_map_iff in Hu as [t [<- Ht]].
    destruct (p t) eqn:Ep; [|auto].
    destruct (Hf t Ep) as [_ [Hr [_ Hb]]]; rewrite Hr.
    destruct (Hb Ha); auto.
  - intros t Ht Ha; exists (if p t then f t else t); split.
    + unfold update_where; simpl; apply in_map_iff; exists t; auto.
    + destruct (p t) eqn:Ep; auto.
      destruct (Hf t Ep) as [Hid [_ [Hm _]]]; auto.
Qed.

Lemma prio_step_insert st now nt st' :
  insert_token st now nt = Some st' -> prio_step st st'.
Proof.
  unfold insert_token; destruct (existsb _ _); intros H; inversion H; subst; clear H.
  split; simpl.
  - intros Hi u Hu Ha; apply in_app_or in Hu as [Hu|[<-|[]]]; [auto|discriminate].
  - intros t Ht Ha; exists t; split; [apply in_or_app; auto|auto].
Qed.

Create HintDb prio.
Global Hint Resolve prio_step_refl : prio.

Ltac prio_update :=
  apply prio_step_update; intros ? _; simpl; repeat split; auto.

Lemma prio_step_alloc r today now pc st :
  prio_step st (snd (alloc_step r today now pc st)).
Proof.
  destruct pc as [a|a s|a s|c]; simpl; auto with prio.
  - destruct (a <? max_attempts); simpl; auto with prio.
  - destruct (insert_token st now _) eqn:E; simpl; [eapply prio_step_insert; eauto|auto with prio].
  - destruct (insert_token st now _) eqn:E; simpl; [eapply prio_step_insert; eauto|auto with prio].
Qed.

Lemma prio_step_run fuel r today now pc st :
  prio_step st (snd (run_alloc fuel r today now pc st)).
Proof.
  revert pc st; induction fuel as [|f IH]; intros pc st; simpl; auto with prio.
  assert (Hgen : prio_step st (snd (let (pc', st') := alloc_step r today now pc st in
                                    run_alloc f r today now pc' st'))).
  { pose proof (prio_step_alloc r today now pc st) as H1.
    destruct (alloc_step r today now pc st) as [pc1 st1]; simpl in *.
    eapply prio_step_trans; [exact H1 | apply IH]. }
  destruct pc; auto with prio.
Qed.

Lemma prio_step_create today now r st : prio_step st (snd (create_token today now r st)).
Proof.
  unfold create_token.
  destruct (find_department st (c_dept_id r)) as [dp|]; [|apply prio_step_refl].
  match goal with |- context [run_alloc ?f ?ar ?d ?n ?pc ?s] =>
    pose proof (prio_step_run f ar d n pc s) as H;
    destruct (run_alloc f ar d n pc s) as [pc' st'] end.
  simpl in H; destruct pc' as [| | |[tn|]]; auto.
  destruct (pos_eta st' tn) as [[p e]|]; auto.
Qed.

Lemma prio_step_call_next_token d D act now st :
  prio_step st (call_next_token d D act now st).
Proof.
  unfold call_next_token; destruct (top_waiting st d D); [|apply prio_step_refl].
  eapply prio_step_trans; [|apply prio_step_same_tokens; reflexivity].
  prio_update.
Qed.

Lemma prio_step_op lr o st : prio_step st (apply_op lr o st).
Proof.
  destruct o as [r today now pc|r today now|tn now|s tn|s tn ns now|s d D today now];
    cbn [apply_op].
  - apply prio_step_alloc.
  - apply prio_step_create.
  - unfold cancel_token; destruct lr as [[|k]|]; simpl;
      (eapply prio_step_trans; [|apply prio_step_same_tokens; reflexivity]);
      unfold cancel_update; prio_update.
  - unfold approve_priority; destruct (sess_user_id s); simpl; [|apply prio_step_refl].
    eapply prio_step_trans; [|apply prio_step_same_tokens; reflexivity].
    unfold approve_update; apply prio_step_update; intros t Hp; simpl.
    apply andb_prop in Hp as [_ Hr]; repeat split; auto.
  - unfold update_status; destruct (sess_user_id s); simpl; [|apply prio_step_refl].
    destruct (parse_new_status ns) as [[]|]; simpl; try apply prio_step_refl;
      (eapply prio_step_trans; [|apply prio_step_same_tokens; reflexivity]);
      unfold complete_update, status_update; prio_update.
  - unfold call_next; destruct (sess_user_id s); simpl; [|apply prio_step_refl].
    apply prio_step_call_next_token.
Qed.

Lemma prio_step_ops lr os st : prio_step st (apply_ops lr os st).
Proof.
  unfold apply_ops; revert st; induction os as [|o os IH]; intros st; simpl.
  - apply prio_step_refl.
  - eapply prio_step_trans; [apply prio_step_op | apply IH].
Qed.

(** Modelled from the spec: the [tokens] defaults and the stored procedure
    [call_next_token] are not in src/. C9. From a store where every approved ticket has requested priority, any
    sequence of the code's writes (statements of [create_token] loops, whole
    calls of the endpoints) keeps it so, and a ticket once approved stays
    approved; the INSERT of [create_token] adds a ticket with
    [priority_approved] false, and [approve_priority] approves only tickets
    with [priority_requested]. *)
Theorem priority_approved_implies_requested lr os st (Hinv : prio_inv st) :
  prio_inv (apply_ops lr os st)
  /\ (forall t, In t (tokens st) -> priority_approved t = true ->
        exists u, In u (tokens (apply_ops lr os st)) /\ id u = id t /\ priority_approved u = true)
  /\ (forall st0 now nt st1, insert_token st0 now nt = Some st1 ->
        exists u, tokens st1 = app (tokens st0) [u] /\ priority_approved u = false)
  /\ (forall s tn st0 u, In u (tokens (snd (approve_priority s tn st0))) ->
        priority_approved u = true ->
        exists t, In t (tokens st0) /\ id t = id u
                  /\ (priority_approved t = true \/ priority_requested t = true)).
Proof.
  destruct (prio_step_ops lr os st) as [I M].
  split; [auto|split; [exact M|split]].
  - intros st0 now nt st1; unfold insert_token; destruct (existsb _ _); intros H;
      inversion H; subst; clear H; eexists; split; reflexivity.
  - intros s tn st0 u; unfold approve_priority; destruct (sess_user_id s); simpl;
      [|intros Hu Ha; exists u; auto].
    unfold approve_update, update_where; simpl; intros Hu Ha.
    apply in_map_iff in Hu as [t [<- Ht]]; exists t; split; [auto|].
    destruct (has_token_no tn t && priority_requested t) eqn:E; simpl in *;
      [apply andb_prop in E as [_ E]|]; auto.
Qed.

Lemma priority_approved_implies_requested_witness :
  prio_inv demo_store
  /\ (forall t, In t (tokens (apply_ops (Some 0)
        [OpCreate (walk_in 1) jan1 100; OpCreate (mkCreateReq "R" "557" 1 None true None) jan1 101;
         OpApprove staff "CARD-001-20240101"; OpApprove staff "CARD-002-20240101"] demo_store)) ->
        priority_approved t = true -> priority_requested t = true).
Proof.
  assert (H0 : prio_inv demo_store) by (intros t []).
  split; [exact H0|].
  exact (proj1 (priority_approved_implies_requested (Some 0)
    [OpCreate (walk_in 1) jan1 100; OpCreate (mkCreateReq "R" "557" 1 None true None) jan1 101;
     OpApprove staff "CARD-001-20240101"; OpApprove staff "CARD-002-20240101"] demo_store H0)).
Defined.

(* ------------------------------------------------------------------ *)
(** ** C4: cancel_token *)

Definition mk_ticket (i : nat) (tn : string) (req : bool) (s : token_status)
    (created : nat) (called : option nat) : token :=
  mkToken i tn "P" "555" 1 jan1 req false s "Visit" created called None None None.

(** Three CARD tickets of 2024-01-01: one Waiting, one Completed, one Called. *)
Definition lifecycle_store : store :=
  mkStore [mk_ticket 1 "CARD-001-20240101" false Waiting 100 None;
           mk_ticket 2 "CARD-002-20240101" false Completed 101 (Some 120);
           mk_ticket 3 "CARD-003-20240101" true Called 102 (Some 150)]
          demo_departments [] 4.

Lemma lifecycle_unique : tokens_unique lifecycle_store.
Proof. vm_compute; repeat constructor; simpl; intuition discriminate. Qed.

(** C4 (the code's outcome does not follow the guard). Whatever value
    [cur.lastrowid] has after an UPDATE, the result of [cancel_token] does not
    depend on whether the guarded UPDATE matched: with mysql-connector's 0 a
    Waiting ticket is cancelled in the store but the call answers 400 "Cannot
    cancel" and logs nothing; with any other value a Completed ticket is
    answered "Cancelled" (and logged) although it is left unchanged. *)
Theorem cancel_token_outcome_ignores_guard :
  (forall lr, ~ (forall st x now, tokens_unique st -> In x (tokens st) ->
       (fst (cancel_token lr (token_no x) now st) = CancelSuccess
        <-> (is_status Waiting x || is_status Called x) = true)))
  /\ (let (res, st') := cancel_token (Some 0) "CARD-001-20240101" 200 lifecycle_store in
      res = CancelRejected
      /\ option_map status (find_token st' "CARD-001-20240101") = Some Cancelled
      /\ logs st' = [])
  /\ (let (res, st') := cancel_token None "CARD-002-20240101" 200 lifecycle_store in
      res = CancelSuccess
      /\ find_token st' "CARD-002-20240101" = find_token lifecycle_store "CARD-002-20240101").
Proof.
  split; [|split; vm_compute; auto].
  intros lr H.
  destruct lr as [[|k]|].
  - specialize (H lifecycle_store (mk_ticket 1 "CARD-001-20240101" false Waiting 100 None) 200
                  lifecycle_unique (or_introl eq_refl)).
    vm_compute in H; destruct H as [_ H]; discriminate (H eq_refl).
  - specialize (H lifecycle_store (mk_ticket 2 "CARD-002-20240101" false Completed 101 (Some 120)) 200
                  lifecycle_unique (or_intror (or_introl eq_refl))).
    vm_compute in H; destruct H as [H _]; discriminate (H eq_refl).
  - specialize (H lifecycle_store (mk_ticket 2 "CARD-002-20240101" false Completed 101 (Some 120)) 200
                  lifecycle_unique (or_intror (or_introl eq_refl))).
    vm_compute in H; destruct H as [H _]; discriminate (H eq_refl).
Qed.

(* ------------------------------------------------------------------ *)
(** ** C6, C7: update_status, approve_priority and the log *)

Lemma find_token_update p f st tn :
  (forall t, token_no (f t) = token_no t) ->
  find_token (update_where p f st) tn
  = option_map (fun t => if p t then f t else t) (find_token st tn).
Proof.
  intros Hf; unfold find_token, update_where; simpl.
  induction (tokens st) as [|t ts IH]; simpl; auto.
  destruct (p t) eqn:Ep; [rewrite Hf|]; destruct (String.eqb (token_no t) tn); simpl;
    rewrite ?Ep; auto.
Qed.

Lemma find_token_has st tn t : find_token st tn = Some t -> has_token_no tn t = true.
Proof. unfold find_token; intros H; apply find_some in H as [_ H]; exact H. Qed.

Lemma find_token_insert_log st tn ev a x : find_token (insert_log st tn ev a) x = find_token st x.
Proof. reflexivity. Qed.

Lemma find_token_update_has tn f st :
  (forall t, token_no (f t) = token_no t) ->
  find_token (update_where (has_token_no tn) f st) tn = option_map f (find_token st tn).
Proof.
  intros Hf; rewrite find_token_update by exact Hf.
  destruct (find_token st tn) as [t|] eqn:E; simpl; auto.
  rewrite (find_token_has _ _ _ E); reflexivity.
Qed.

(** C6 (as stated, refuted). A Waiting ticket is set In-Progress, and a
    Completed ticket is set No-show, by [update_status]. *)
Lemma update_status_unguarded :
  option_map status (find_token (snd (update_status staff "CARD-001-20240101" "In-Progress" 200
                                        lifecycle_store)) "CARD-001-20240101") = Some InProgress
  /\ option_map status (find_token lifecycle_store "CARD-001-20240101") = Some Waiting
  /\ option_map status (find_token (snd (update_status staff "CARD-002-20240101" "No-show" 200
                                        lifecycle_store)) "CARD-002-20240101") = Some NoShow
  /\ option_map status (find_token lifecycle_store "CARD-002-20240101") = Some Completed.
Proof. vm_compute; repeat split. Qed.

(** C6 (amended). For a logged-in session, [update_status] sets In-Progress
    or No-show on the named ticket whatever its current status; Completed is
    guarded: the ticket becomes Completed (with [completed_at]) when it is
    Called or In-Progress and is left as it is otherwise; any other status
    name changes nothing. *)
Theorem update_status_transitions s tn ns now st (Hs : sess_user_id s <> None) :
  (ns = "In-Progress" ->
     find_token (snd (update_status s tn ns now st)) tn
     = option_map (set_status InProgress) (find_token st tn))
  /\ (ns = "No-show" ->
     find_token (snd (update_status s tn ns now st)) tn
     = option_map (set_status NoShow) (find_token st tn))
  /\ (ns = "Completed" ->
     find_token (snd (update_status s tn ns now st)) tn
     = option_map (fun t => if is_status Called t || is_status InProgress t
                            then set_completed now t else t) (find_token st tn))
  /\ (parse_new_status ns = None -> snd (update_status s tn ns now st) = st).
Proof.
  unfold update_status; destruct (sess_user_id s) as [u|]; [|congruence].
  split; [|split; [|split]].
  - intros ->; simpl; rewrite find_token_insert_log; unfold status_update.
    apply find_token_update_has; reflexivity.
  - intros ->; simpl; rewrite find_token_insert_log; unfold status_update.
    apply find_token_update_has; reflexivity.
  - intros ->; simpl; rewrite find_token_insert_log; unfold complete_update.
    rewrite find_token_update by reflexivity.
    destruct (find_token st tn) as [t|] eqn:E; simpl; auto.
    rewrite (find_token_has _ _ _ E); reflexivity.
  - intros E; rewrite E; reflexivity.
Qed.

Lemma update_status_transitions_witness :
  sess_user_id staff <> None
  /\ find_token (snd (update_status staff "CARD-003-20240101" "In-Progress" 200 lifecycle_store))
       "CARD-003-20240101"
     = Some (set_status InProgress (mk_ticket 3 "CARD-003-20240101" true Called 102 (Some 150))).
Proof.
  assert (Hs : sess_user_id staff <> None) by discriminate.
  split; [exact Hs|].
  exact (proj1 (update_status_transitions staff "CARD-003-20240101" "In-Progress" 200
                  lifecycle_store Hs) eq_refl).
Defined.

Lemma find_token_id_update p f st tn :
  (forall t, token_no (f t) = token_no t) -> (forall t, id (f t) = id t) ->
  option_map id (find_token (update_where p f st) tn) = option_map id (find_token st tn).
Proof.
  intros Hf Hi; rewrite find_token_update by exact Hf.
  destruct (find_token st tn); simpl; auto; destruct (p t); auto.
Qed.

(** C7 (the log does not follow the guards). [approve_priority] and
    [update_status] insert their log entry and answer success unconditionally
    after the UPDATE, so a transition refused by the UPDATE's guard is still
    answered "success" and logged: for every logged-in session [approve_priority]
    answers "Priority approved" and appends one [approved_priority] entry,
    whether or not the ticket requested priority; approving a ticket without a
    request, and completing a Waiting ticket, leave the ticket unchanged yet
    each answers success and appends an entry. [cancel_token] (with
    mysql-connector's [cur.lastrowid] of 0) cancels a Waiting ticket but logs
    nothing. *)
Theorem lifecycle_log_ignores_guard :
  (forall uid nm tn st,
     fst (approve_priority (mkSession (Some uid) nm) tn st) = ApproveSuccess
     /\ logs (snd (approve_priority (mkSession (Some uid) nm) tn st))
        = app (logs st) [mkLog (option_map id (find_token st tn)) "approved_priority" nm])
  /\ (let (res, st') := approve_priority staff "CARD-001-20240101" lifecycle_store in
      res = ApproveSuccess /\ tokens st' = tokens lifecycle_store
      /\ logs st' = [mkLog (Some 1) "approved_priority" (Some "Dr. A")])
  /\ (let (res, st') := update_status staff "CARD-001-20240101" "Completed" 200 lifecycle_store in
      res = StatusSuccess /\ tokens st' = tokens lifecycle_store
      /\ logs st' = [mkLog (Some 1) "Completed" (Some "Dr. A")])
  /\ (let (res, st') := cancel_token (Some 0) "CARD-001-20240101" 200 lifecycle_store in
      option_map status (find_token st' "CARD-001-20240101") = Some Cancelled
      /\ logs st' = logs lifecycle_store).
Proof.
  split; [|vm_compute; repeat split].
  intros uid nm tn st; split; [reflexivity|]; simpl.
  unfold approve_update; rewrite find_token_id_update by reflexivity; reflexivity.
Qed.

(* ------------------------------------------------------------------ *)
(** ** C5: call_next *)

Section PickBest.
Variable P : token -> bool.
Variable better : token -> token -> bool.

Lemma pick_fold_in l acc t :
  fold_left (pick_step P better) l acc = Some t ->
  acc = Some t \/ (In t l /\ P t = true).
Proof.
  revert acc; induction l as [|x l IH]; intros acc H; simpl in H; [auto|].
  destruct (IH _ H) as [E|[Hin Hp]]; [|right; split; [right|]; auto].
  unfold pick_step in E; destruct (P x) eqn:Ep; [|auto].
  destruct acc as [b|]; [destruct (better x b)|]; inversion E; subst;
    try (left; reflexivity); (right; split; [left|]; auto).
Qed.

Lemma pick_fold_some l b : fold_left (pick_step P better) l (Some b) <> None.
Proof.
  revert b; induction l as [|x l IH]; intros b; simpl; [discriminate|].
  unfold pick_step at 2; destruct (P x); [destruct (better x b)|]; apply IH.
Qed.

Lemma pick_best_none l :
  pick_best P better l = None <-> forall u, In u l -> P u = false.
Proof.
  unfold pick_best; split.
  - induction l as [|x l IH]; simpl; intros H u Hu; [contradiction|].
    unfold pick_step at 2 in H; destruct (P x) eqn:Ep.
    + exfalso; exact (pick_fold_some l x H).
    + destruct Hu as [<-|Hu]; auto.
  - induction l as [|x l IH]; simpl; intros H; [reflexivity|].
    unfold pick_step at 2; rewrite (H x (or_introl eq_refl)); auto.
Qed.

Lemma pick_keep l w :
  (forall u, In u l -> P u = true -> better u w = true -> u = w) ->
  fold_left (pick_step P better) l (Some w) = Some w.
Proof.
  induction l as [|x l IH]; simpl; intros H; [reflexivity|].
  unfold pick_step at 2; destruct (P x) eqn:Ep; [|auto].
  destruct (better x w) eqn:Eb; [|auto].
  rewrite (H x (or_introl eq_refl) Ep Eb); auto.
Qed.

(** The row beating every other selected row is the one picked. *)
Lemma pick_fold_max l w acc :
  In w l -> P w = true ->
  (forall u, In u l -> P u = true -> better u w = true -> u = w) ->
  (forall u, In u l -> P u = true -> better w u = false -> u = w) ->
  (forall b, acc = Some b -> better w b = false -> b = w) ->
  fold_left (pick_step P better) l acc = Some w.
Proof.
  revert acc; induction l as [|x l IH]; intros acc Hw Hp Hlt Hgt Hb; [contradiction|].
  simpl; destruct Hw as [->|Hw].
  - assert (Hs : pick_step P better acc w = Some w).
    { unfold pick_step; rewrite Hp; destruct acc as [b|]; [|reflexivity].
      destruct (better w b) eqn:Eb; [reflexivity|].
      rewrite (Hb b eq_refl Eb); reflexivity. }
    rewrite Hs; apply pick_keep.
    intros u Hu Hpu; apply Hlt; auto; right; auto.
  - apply IH; auto.
    + intros u Hu; apply Hlt; right; auto.
    + intros u Hu; apply Hgt; right; auto.
    + intros b Hs; unfold pick_step in Hs; destruct (P x) eqn:Ep; [|auto].
      destruct acc as [c|]; [destruct (better x c)|]; inversion Hs; subst; auto;
        (intros E; apply (Hgt b (or_introl eq_refl) Ep E)).
Qed.

End PickBest.

Lemma called_later_asym a b : called_later a b = true -> called_later b a = false.
Proof.
  destruct a as [x|], b as [y|]; simpl; try discriminate; auto.
  intros H; apply Nat.ltb_lt in H; apply Nat.ltb_ge; lia.
Qed.

Lemma NoDup_map_inj {A B} (f : A -> B) l x y :
  NoDup (map f l) -> In x l -> In y l -> f x = f y -> x = y.
Proof.
  induction l as [|a l IH]; simpl; intros Hn Hx Hy E; [contradiction|].
  inversion Hn as [|? ? Hna Hnl]; subst.
  destruct Hx as [<-|Hx], Hy as [<-|Hy]; auto.
  - exfalso; apply Hna; rewrite E; apply in_map; exact Hy.
  - exfalso; apply Hna; rewrite <- E; apply in_map; exact Hx.
Qed.

Lemma top_waiting_in st d D t :
  top_waiting st d D = Some t ->
  In t (tokens st) /\ same_pair d D t = true /\ status t = Waiting.
Proof.
  unfold top_waiting, pick_best; intros H.
  destruct (pick_fold_in _ _ _ _ _ H) as [E|[Hin Hp]]; [discriminate|].
  apply andb_prop in Hp; destruct Hp as [Hp Hs].
  unfold is_status in Hs; destruct (status t); try discriminate; auto.
Qed.

Lemma same_pair_set_called d D now t : same_pair d D (set_called now t) = same_pair d D t.
Proof. reflexivity. Qed.

(** The call-next store holding only the Completed and the Called ticket of
    2024-01-01: no ticket of the pair is Waiting. *)
Definition no_waiting_store : store :=
  mkStore [mk_ticket 2 "CARD-002-20240101" false Completed 101 (Some 120);
           mk_ticket 3 "CARD-003-20240101" true Called 102 (Some 150)]
          demo_departments [] 4.

(** C5 (as stated, refuted). With no Waiting ticket for (1, 2024-01-01),
    [call_next] does not answer none: it returns the ticket called at 150. *)
Lemma call_next_no_waiting_not_none :
  top_waiting no_waiting_store 1 jan1 = None
  /\ call_next staff 1 None jan1 200 no_waiting_store
     = (CallSuccess (Some (mk_ticket 3 "CARD-003-20240101" true Called 102 (Some 150))),
        no_waiting_store).
Proof. split; vm_compute; reflexivity. Qed.

(** Modelled from the spec: the stored procedure [call_next_token] is not in
    src/. C5 (amended). [call_next] runs the procedure, then returns the
    Called ticket of the pair with the latest [called_at]. When a Waiting
    ticket exists, this is the top-ranked Waiting ticket the procedure just
    called, provided ids are distinct and every other Called ticket of the
    pair was called strictly before [now]. When none exists, nothing changes
    and the answer is the latest-called ticket still Called; it is none only
    when the pair has no Called ticket. *)
Theorem call_next_returns_latest_called s d Dopt today now st
  (Hs : sess_user_id s <> None) :
  (forall t, top_waiting st d (effective_date Dopt today) = Some t ->
     NoDup (map id (tokens st)) ->
     (forall u, In u (tokens st) ->
        same_pair d (effective_date Dopt today) u && is_status Called u = true ->
        called_later (Some now) (called_at u) = true) ->
     fst (call_next s d Dopt today now st) = CallSuccess (Some (set_called now t))
     /\ token_no (set_called now t) = token_no t
     /\ status (set_called now t) = Called)
  /\ (top_waiting st d (effective_date Dopt today) = None ->
     call_next s d Dopt today now st
       = (CallSuccess (latest_called st d (effective_date Dopt today)), st)
     /\ (latest_called st d (effective_date Dopt today) = None <->
         forall u, In u (tokens st) ->
           same_pair d (effective_date Dopt today) u && is_status Called u = false)).
Proof.
  unfold call_next; destruct (sess_user_id s) as [uid|]; [|congruence]; clear Hs.
  set (D := effective_date Dopt today).
  split.
  - intros t Ht Hnd Hold.
    split; [|split; reflexivity].
    cbn [fst]; f_equal.
    unfold call_next_token; rewrite Ht.
    destruct (top_waiting_in _ _ _ _ Ht) as [Hin [Hpair _]].
    unfold latest_called, pick_best; cbn [tokens insert_log update_where].
    apply pick_fold_max.
    + apply in_map_iff; exists t; split; [rewrite Nat.eqb_refl; reflexivity | exact Hin].
    + rewrite same_pair_set_called, Hpair; reflexivity.
    + intros u Hu Hp Hb; apply in_map_iff in Hu; destruct Hu as [u0 [<- Hu0]].
      destruct (id u0 =? id t) eqn:E.
      * apply Nat.eqb_eq in E; rewrite (NoDup_map_inj id _ _ _ Hnd Hu0 Hin E); reflexivity.
      * specialize (Hold u0 Hu0 Hp); apply called_later_asym in Hold; cbn beta in Hb;
          cbn [called_at set_called] in Hb; congruence.
    + intros u Hu Hp Hb; apply in_map_iff in Hu; destruct Hu as [u0 [<- Hu0]].
      destruct (id u0 =? id t) eqn:E.
      * apply Nat.eqb_eq in E; rewrite (NoDup_map_inj id _ _ _ Hnd Hu0 Hin E); reflexivity.
      * specialize (Hold u0 Hu0 Hp); cbn beta in Hb;
          cbn [called_at set_called] in Hb; congruence.
    + discriminate.
  - intros Hn; unfold call_next_token; rewrite Hn; split; [reflexivity|].
    apply pick_best_none.
Qed.

(** The lifecycle store: ticket 1 is the only Waiting one, ticket 3 was
    called at 150; calling at 200 returns ticket 1, now Called. *)
Lemma call_next_returns_latest_called_witness :
  sess_user_id staff <> None
  /\ fst (call_next staff 1 None jan1 200 lifecycle_store)
     = CallSuccess (Some (set_called 200 (mk_ticket 1 "CARD-001-20240101" false Waiting 100 None))).
Proof.
  assert (Hs : sess_user_id staff <> None) by discriminate.
  split; [exact Hs|].
  refine (proj1 (proj1 (call_next_returns_latest_called staff 1 None jan1 200 lifecycle_store Hs)
                   _ _ _ _)).
  - vm_compute; reflexivity.
  - vm_compute; repeat constructor; simpl; intuition discriminate.
  - intros u Hu; simpl in Hu; destruct Hu as [<-|[<-|[<-|[]]]]; intros _; reflexivity.
Defined.

(* ------------------------------------------------------------------ *)
(** ** Ticket numbers determine prefix, suffix and date *)

Definition is_digit (c : ascii) : bool := (48 <=? nat_of_ascii c) && (nat_of_ascii c <=? 57).

Fixpoint all_digits (s : string) : bool :=
  match s with
  | EmptyString => true
  | String c s' => is_digit c && all_digits s'
  end.

(** The value of a decimal digit string (Python [int(s)] on [str]'s output). *)
Fixpoint dec_aux (s : string) (acc : nat) : nat :=
  match s with
  | EmptyString => acc
  | String c s' => dec_aux s' (acc * 10 + (nat_of_ascii c - 48))
  end.

Lemma digit_code k : nat_of_ascii (digit k) = 48 + k mod 10.
Proof.
  unfold digit; pose proof (Nat.mod_upper_bound k 10).
  rewrite nat_ascii_embedding by lia; reflexivity.
Qed.

Lemma digit_is_digit k : is_digit (digit k) = true.
Proof.
  unfold is_digit; rewrite digit_code; pose proof (Nat.mod_upper_bound k 10).
  apply andb_true_intro; split; apply Nat.leb_le; lia.
Qed.

Lemma all_digits_app s t : all_digits (s ++ t) = all_digits s && all_digits t.
Proof. induction s as [|c s IH]; simpl; [reflexivity|]; rewrite IH, andb_assoc; reflexivity. Qed.

Lemma all_digits_str_aux f n acc :
  all_digits acc = true -> all_digits (str_aux f n acc) = true.
Proof.
  revert n acc; induction f as [|f IH]; intros n acc H; cbn [str_aux]; [exact H|].
  assert (H' : all_digits (String (digit n) acc) = true)
    by (cbn [all_digits]; rewrite digit_is_digit, H; reflexivity).
  destruct (n <? 10); [exact H' | apply IH, H'].
Qed.

Lemma all_digits_zeros k : all_digits (zeros k) = true.
Proof. induction k as [|k IH]; [reflexivity|]; cbn [zeros all_digits]; rewrite IH; reflexivity. Qed.

Lemma all_digits_zfill_str w n : all_digits (zfill w (str n)) = true.
Proof.
  unfold zfill, str; rewrite all_digits_app, all_digits_zeros, all_digits_str_aux; reflexivity.
Qed.

Lemma dec_aux_app s t a : dec_aux (s ++ t) a = dec_aux t (dec_aux s a).
Proof. revert a; induction s as [|c s IH]; intros a; simpl; auto. Qed.

Lemma dec_aux_shift s a : dec_aux s a = a * 10 ^ String.length s + dec_aux s 0.
Proof.
  revert a; induction s as [|c s IH]; intros a; cbn [dec_aux String.length]; [simpl; lia|].
  rewrite (IH (a * 10 + _)), (IH (0 * 10 + _)), Nat.pow_succ_r'; nia.
Qed.

Lemma str_aux_dec f n acc :
  n < f -> dec_aux (str_aux f n acc) 0 = n * 10 ^ String.length acc + dec_aux acc 0.
Proof.
  revert n acc; induction f as [|f IH]; intros n acc H; [lia|].
  cbn [str_aux].
  pose proof (Nat.div_mod_eq n 10) as Hd.
  destruct (Nat.ltb_spec n 10) as [Hl|Hl].
  - cbn [dec_aux]; rewrite digit_code, dec_aux_shift, Nat.mod_small by exact Hl; lia.
  - rewrite IH by (pose proof (Nat.div_lt n 10); lia).
    cbn [dec_aux String.length]; rewrite digit_code, (dec_aux_shift acc), Nat.pow_succ_r'.
    nia.
Qed.

Lemma dec_str n : dec_aux (str n) 0 = n.
Proof. unfold str; rewrite str_aux_dec by lia; simpl; lia. Qed.

Lemma dec_zeros k a : dec_aux (zeros k) a = a * 10 ^ k.
Proof.
  revert a; induction k as [|k IH]; intros a; cbn [zeros dec_aux]; [simpl; lia|].
  rewrite IH, Nat.pow_succ_r'; cbn; lia.
Qed.

Lemma zfill_str_inj w a b : zfill w (str a) = zfill w (str b) -> a = b.
Proof.
  unfold zfill; intros H; apply (f_equal (fun s => dec_aux s 0)) in H.
  rewrite !dec_aux_app, !dec_zeros, !Nat.mul_0_l, !dec_str in H; exact H.
Qed.

Lemma string_app_assoc (s t u : string) : (s ++ t) ++ u = s ++ (t ++ u).
Proof. induction s as [|c s IH]; simpl; [reflexivity|]; rewrite IH; reflexivity. Qed.

Lemma append_inj_r (s1 s2 t1 t2 : string) :
  s1 ++ t1 = s2 ++ t2 -> String.length t1 = String.length t2 -> s1 = s2 /\ t1 = t2.
Proof.
  intros H Hl; apply append_inj; [exact H|].
  apply (f_equal String.length) in H; rewrite !string_length_append in H; lia.
Qed.

Lemma all_digits_dash p z : all_digits (p ++ String "-" z) = false.
Proof. rewrite all_digits_app; cbn; apply andb_false_r. Qed.

Lemma split_dash p1 p2 z1 z2 :
  all_digits z1 = true -> all_digits z2 = true ->
  p1 ++ String "-" z1 = p2 ++ String "-" z2 -> p1 = p2 /\ z1 = z2.
Proof.
  revert p2; induction p1 as [|c p1 IH]; intros [|c' p2] H1 H2 H; cbn [String.append] in H.
  - injection H as ->; auto.
  - injection H as _ Ht; subst z1; rewrite all_digits_dash in H1; discriminate.
  - injection H as _ Ht; subst z2; rewrite all_digits_dash in H2; discriminate.
  - injection H as -> Ht; destruct (IH p2 H1 H2 Ht) as [-> ->]; auto.
Qed.

Lemma strftime_ymd_length d : String.length (strftime_ymd d) = 8.
Proof. unfold strftime_ymd; rewrite !string_length_append, !digits_fixed_length; reflexivity. Qed.

(** [format_token] ([utils/token_generator.format_token], and the f-string of
    [create_token]) is injective on real dates: a ticket number determines
    the prefix, the suffix and the date it was made from, whatever the prefix
    (it may contain '-') and however many digits the suffix has. *)
Theorem format_token_inj p1 p2 s1 s2 d1 d2
  (H1 : valid_date d1) (H2 : valid_date d2)
  (E : format_token p1 s1 d1 = format_token p2 s2 d2) :
  p1 = p2 /\ s1 = s2 /\ d1 = d2.
Proof.
  unfold format_token in E; cbn [String.append] in E.
  assert (A : forall p z y : string, p ++ String "-" (z ++ y) = (p ++ String "-" z) ++ y)
    by (intros; rewrite string_app_assoc; reflexivity).
  rewrite !A in E.
  apply append_inj_r in E as [E Ed]; [|cbn [String.append String.length];
                                       rewrite !strftime_ymd_length; reflexivity].
  apply split_dash in E as [-> Ez]; [|apply all_digits_zfill_str ..].
  apply (f_equal (fun s => match s with String _ r => r | EmptyString => EmptyString end)) in Ed.
  cbv beta iota in Ed.
  split; [reflexivity | split; [apply (zfill_str_inj 3), Ez | apply strftime_ymd_inj; auto]].
Qed.

Lemma format_token_inj_witness :
  valid_date jan1
  /\ format_token "CARD" 12 jan1 = "CARD-012-20240101"
  /\ ("CARD" = "CARD" /\ 12 = 12 /\ jan1 = jan1).
Proof.
  assert (V : valid_date jan1) by (unfold valid_date; simpl; lia).
  split; [exact V | split; [vm_compute; reflexivity|]].
  exact (format_token_inj "CARD" "CARD" 12 12 jan1 jan1 V V eq_refl).
Defined.

(* ------------------------------------------------------------------ *)
(** ** What one [create_token] call writes *)

(** Where a run of the loop stands relative to its starting store [st0]:
    before the successful INSERT nothing has changed; after it, the store is
    [st0] with that one INSERT. *)
Definition alloc_effect (r : alloc_req) (now : nat) (st0 : store) (pc : alloc_pc)
    (st : store) : Prop :=
  match pc with
  | ADone (Some tn) => insert_token st0 now (new_of r tn) = Some st
  | _ => st = st0
  end.

Lemma alloc_step_effect r today now st0 pc st pc' st' :
  alloc_effect r now st0 pc st -> alloc_step r today now pc st = (pc', st') ->
  alloc_effect r now st0 pc' st'.
Proof.
  destruct pc as [a|a s|a s|[c|]]; cbn [alloc_step alloc_effect]; intros He H.
  - destruct (a <? max_attempts); inversion H; subst; reflexivity.
  - subst st; destruct (insert_token st0 now _) as [st1|] eqn:Ei; inversion H; subst;
      [exact Ei | reflexivity].
  - subst st; destruct (insert_token st0 now _) as [st1|] eqn:Ei; inversion H; subst;
      [exact Ei | reflexivity].
  - inversion H; subst; exact He.
  - inversion H; subst; reflexivity.
Qed.

Lemma run_alloc_effect fuel r today now st0 pc st pc' st' :
  alloc_effect r now st0 pc st -> run_alloc fuel r today now pc st = (pc', st') ->
  alloc_effect r now st0 pc' st'.
Proof.
  revert pc st; induction fuel as [|f IH]; intros pc st He H; cbn [run_alloc] in H.
  - inversion H; subst; exact He.
  - destruct pc as [a|a s|a s|c];
      try (inversion H; subst; exact He);
      (destruct (alloc_step r today now _ st) as [pc1 st1] eqn:Es;
       exact (IH _ _ (alloc_step_effect _ _ _ _ _ _ _ _ He Es) H)).
Qed.

(** [reason or "Visit"]. *)
Definition reason_or_visit (o : option string) : string :=
  match o with
  | Some s => if String.eqb s "" then "Visit" else s
  | None => "Visit"
  end.

Lemma create_token_effect today now r st :
  match create_token today now r st with
  | (CreateSuccess tn _ _, st') =>
      exists dp, find_department st (c_dept_id r) = Some dp
        /\ insert_token st now
             (mkNewToken tn (c_patient_name r) (c_patient_phone r) (c_dept_id r)
                (effective_date (c_appointment_date r) today) (c_priority_requested r)
                (reason_or_visit (c_reason r))) = Some st'
  | (_, st') => st' = st
  end.
Proof.
  unfold create_token.
  destruct (find_department st (c_dept_id r)) as [dp|] eqn:Ed; [|reflexivity].
  match goal with |- context [run_alloc ?f ?ar ?d ?n ?pc ?s] =>
    destruct (run_alloc f ar d n pc s) as [pc' st'] eqn:E end.
  apply (run_alloc_effect _ _ _ _ st _ st) in E; [|reflexivity].
  destruct pc' as [| | |[tn|]]; cbn [alloc_effect] in E; try exact E.
  destruct (pos_eta st' tn) as [[p e]|]; exists dp; split; auto.
Qed.

(* ------------------------------------------------------------------ *)
(** ** How the writes move the queue *)

Lemma filter_length_map_le (f : token -> token) (p : token -> bool) l :
  (forall t, p (f t) = true -> p t = true) ->
  List.length (filter p (map f l)) <= List.length (filter p l).
Proof.
  intros H; induction l as [|t l IH]; simpl; [lia|].
  destruct (p (f t)) eqn:E1; [rewrite (H t E1)|destruct (p t)]; simpl; lia.
Qed.

(** A row change that keeps the ranking columns and leaves no row Waiting. *)
Definition leaves_waiting (f : token -> token) : Prop :=
  forall t, dept_id (f t) = dept_id t /\ appointment_date (f t) = appointment_date t
    /\ priority_approved (f t) = priority_approved t /\ created_at (f t) = created_at t
    /\ status_eqb (status (f t)) Waiting = false.

Lemma position_update_where_le x p f st :
  leaves_waiting f -> position_ahead (update_where p f st) x <= position_ahead st x.
Proof.
  intros Hf; unfold position_ahead, update_where; cbn [tokens].
  apply filter_length_map_le; intros t; destruct (p t); [|auto].
  destruct (Hf t) as [Hd [Ha [Hp [Hc Hs]]]].
  unfold ahead_sql; rewrite Hd, Ha, Hp, Hc, Hs; rewrite !andb_false_r; discriminate.
Qed.

Lemma parse_new_status_spec ns k :
  parse_new_status ns = Some k -> k = InProgress \/ k = Completed \/ k = NoShow.
Proof.
  unfold parse_new_status.
  destruct (String.eqb ns "In-Progress"); [intros H; inversion H; auto|].
  destruct (String.eqb ns "Completed"); [intros H; inversion H; auto|].
  destruct (String.eqb ns "No-show"); intros H; inversion H; auto.
Qed.

(** Cancelling and the status updates never move any ticket back in the
    queue: whatever they answer, the [position_ahead] of every ticket after
    [cancel_token] or [update_status] is at most what it was before. *)
Theorem status_changes_never_raise_position lr s tn ns now st x :
  position_ahead (snd (cancel_token lr tn now st)) x <= position_ahead st x
  /\ position_ahead (snd (update_status s tn ns now st)) x <= position_ahead st x.
Proof.
  split.
  - unfold cancel_token, cancel_update.
    destruct lr as [[|k]|]; cbn [snd];
      (apply position_update_where_le; intros t; repeat split).
  - unfold update_status; destruct (sess_user_id s); cbn [snd]; [|lia].
    destruct (parse_new_status ns) as [k|] eqn:Ek; cbn [snd]; [|lia].
    change (position_ahead (insert_log ?s1 tn ns (sess_name s)) x) with (position_ahead s1 x).
    destruct (parse_new_status_spec _ _ Ek) as [->|[->| ->]];
      [unfold status_update | unfold complete_update | unfold status_update];
      (apply position_update_where_le; intros t; repeat split).
Qed.

Lemma position_ahead_app st x u :
  position_ahead (mkStore (app (tokens st) [u]) (departments st) (logs st) (S (next_id st))) x
  = position_ahead st x + (if ahead_sql x u then 1 else 0).
Proof.
  unfold position_ahead; cbn [tokens]; rewrite filter_app, length_app.
  simpl; destruct (ahead_sql x u); reflexivity.
Qed.

(** A new ticket is never ranked ahead of one created no later: after
    [create_token] at time [now], the [position_ahead] of every ticket with
    [created_at <= now] is what it was before (the INSERT takes the table's
    defaults [priority_approved = 0] and [created_at = NOW()]). *)
Theorem create_token_keeps_positions today now r st x
  (Hx : created_at x <= now) :
  position_ahead (snd (create_token today now r st)) x = position_ahead st x.
Proof.
  pose proof (create_token_effect today now r st) as He.
  destruct (create_token today now r st) as [res st'].
  destruct res as [| |tn p e]; cbn [snd]; try (rewrite He; reflexivity).
  destruct He as [dp [_ Hi]]; unfold insert_token in Hi.
  destruct (existsb _ _); inversion Hi; subst; clear Hi.
  rewrite position_ahead_app; unfold ahead_sql; cbn [status priority_approved created_at].
  destruct (Nat.ltb_spec now (created_at x)); [lia|].
  destruct (priority_approved x); simpl; rewrite !andb_false_r; lia.
Qed.

Lemma create_token_keeps_positions_witness :
  created_at (mk_ticket 1 "CARD-001-20240101" false Waiting 100 None) <= 200
  /\ position_ahead (snd (create_token jan1 200 (mkCreateReq "Q" "556" 1 None false None)
                           lifecycle_store))
       (mk_ticket 1 "CARD-001-20240101" false Waiting 100 None) = 0.
Proof.
  assert (H : created_at (mk_ticket 1 "CARD-001-20240101" false Waiting 100 None) <= 200)
    by (cbn; lia).
  split; [exact H|].
  rewrite (create_token_keeps_positions jan1 200 (mkCreateReq "Q" "556" 1 None false None)
             lifecycle_store _ H).
  vm_compute; reflexivity.
Defined.

(** A successful [create_token] appends exactly one row, with the request's
    values, the requested date (today when none), reason "Visit" when none or
    empty, and the table defaults; it writes no log entry. An unknown
    department answers "Invalid department"; every other failure leaves the
    store as it was. *)
Theorem create_token_writes_one_row today now r st :
  (find_department st (c_dept_id r) = None -> create_token today now r st = (CreateInvalidDept, st))
  /\ match create_token today now r st with
     | (CreateSuccess tn _ _, st') =>
         ~ In tn (tns st)
         /\ tokens st' = app (tokens st)
              [mkToken (next_id st) tn (c_patient_name r) (c_patient_phone r) (c_dept_id r)
                 (effective_date (c_appointment_date r) today) (c_priority_requested r)
                 false Waiting (reason_or_visit (c_reason r)) now None None None None]
         /\ logs st' = logs st /\ departments st' = departments st
         /\ next_id st' = S (next_id st)
     | (_, st') => st' = st
     end.
Proof.
  split; [intros H; unfold create_token; rewrite H; reflexivity|].
  pose proof (create_token_effect today now r st) as He.
  destruct (create_token today now r st) as [res st'].
  destruct res as [| |tn p e]; try exact He.
  destruct He as [dp [_ Hi]].
  pose proof (insert_token_spec _ _ _ _ Hi) as [_ Hn].
  unfold insert_token in Hi; destruct (existsb _ _); inversion Hi; subst; clear Hi.
  repeat split; auto.
Qed.

Lemma create_token_writes_one_row_witness :
  find_department lifecycle_store 9 = None
  /\ create_token jan1 200 (mkCreateReq "Q" "556" 9 None false None) lifecycle_store
     = (CreateInvalidDept, lifecycle_store).
Proof.
  assert (H : find_department lifecycle_store 9 = None) by reflexivity.
  split; [exact H|].
  exact (proj1 (create_token_writes_one_row jan1 200 (mkCreateReq "Q" "556" 9 None false None)
                  lifecycle_store) H).
Defined.

(* ------------------------------------------------------------------ *)
(** ** Ticket numbers with no row *)

Lemma find_token_none st tn : ~ In tn (tns st) -> find_token st tn = None.
Proof.
  intros Hn; unfold find_token; destruct (find _ _) as [t|] eqn:E; [|reflexivity].
  apply find_some in E as [Hin E]; apply String.eqb_eq in E; subst.
  exfalso; apply Hn, in_map; exact Hin.
Qed.

Lemma update_where_no_match tn p f st :
  ~ In tn (tns st) -> (forall t, p t = true -> has_token_no tn t = true) ->
  update_where p f st = mkStore (tokens st) (departments st) (logs st) (next_id st).
Proof.
  intros Hn Hp; unfold update_where; f_equal.
  rewrite <- (map_id (tokens st)) at 2; apply map_ext_in; intros t Ht.
  destruct (p t) eqn:E; [|reflexivity].
  apply Hp in E; unfold has_token_no in E; apply String.eqb_eq in E; subst.
  exfalso; apply Hn, in_map; exact Ht.
Qed.

(** For a ticket number no row has, the lifecycle endpoints change no ticket,
    yet [approve_priority] and [update_status] answer success and append a log
    entry whose [token_id] is NULL; [cancel_token] does the same unless
    [cur.lastrowid] is 0, where it answers "Cannot cancel" and logs nothing. *)
Theorem unknown_ticket_no tn st (Hn : ~ In tn (tns st)) :
  (forall lr now,
     cancel_token lr tn now st
     = match lr with
       | Some 0 => (CancelRejected, mkStore (tokens st) (departments st) (logs st) (next_id st))
       | _ => (CancelSuccess, mkStore (tokens st) (departments st)
                                (app (logs st) [mkLog None "cancelled" (Some "patient")])
                                (next_id st))
       end)
  /\ (forall s, sess_user_id s <> None ->
        approve_priority s tn st
        = (ApproveSuccess, mkStore (tokens st) (departments st)
                             (app (logs st) [mkLog None "approved_priority" (sess_name s)])
                             (next_id st)))
  /\ (forall s ns now k, sess_user_id s <> None -> parse_new_status ns = Some k ->
        update_status s tn ns now st
        = (StatusSuccess, mkStore (tokens st) (departments st)
                            (app (logs st) [mkLog None ns (sess_name s)]) (next_id st))).
Proof.
  assert (Hf : forall q : token -> bool, forall t,
            has_token_no tn t && q t = true -> has_token_no tn t = true)
    by (intros q t H; apply andb_prop in H; apply H).
  pose proof (find_token_none _ _ Hn) as Hnone.
  split; [|split].
  - intros lr now; unfold cancel_token, cancel_update.
    rewrite (update_where_no_match tn) by (auto; apply Hf).
    destruct lr as [[|k]|]; unfold insert_log, find_token in *; cbn [tokens departments logs next_id]; rewrite ?Hnone; reflexivity.
  - intros s Hs; unfold approve_priority; destruct (sess_user_id s); [|congruence].
    unfold approve_update; rewrite (update_where_no_match tn) by (auto; apply Hf).
    unfold insert_log, find_token in *; cbn [tokens departments logs next_id]; rewrite Hnone; reflexivity.
  - intros s ns now k Hs Hk; unfold update_status; destruct (sess_user_id s); [|congruence].
    rewrite Hk.
    destruct k; unfold complete_update, status_update;
      rewrite (update_where_no_match tn) by (auto; apply Hf);
      unfold insert_log, find_token in *; cbn [tokens departments logs next_id]; rewrite Hnone; reflexivity.
Qed.

Lemma unknown_ticket_no_witness :
  ~ In "CARD-009-20240101" (tns lifecycle_store)
  /\ sess_user_id staff <> None
  /\ logs (snd (approve_priority staff "CARD-009-20240101" lifecycle_store))
     = [mkLog None "approved_priority" (Some "Dr. A")].
Proof.
  assert (Hn : ~ In "CARD-009-20240101" (tns lifecycle_store)).
  { unfold tns; simpl; intros [H|[H|[H|[]]]]; discriminate. }
  assert (Hs : sess_user_id staff <> None) by discriminate.
  split; [exact Hn | split; [exact Hs|]].
  rewrite (proj1 (proj2 (unknown_ticket_no "CARD-009-20240101" lifecycle_store Hn)) staff Hs).
  reflexivity.
Defined.

(* ------------------------------------------------------------------ *)
(** ** No write removes a ticket or changes what identifies it *)

Definition ticket_key (t : token) :=
  (id t, token_no t, patient_name t, patient_phone t, dept_id t, appointment_date t,
   priority_requested t, reason t, created_at t).

Definition keys_grow (st st' : store) : Prop :=
  exists l, map ticket_key (tokens st') = app (map ticket_key (tokens st)) l.

Lemma keys_grow_refl st : keys_grow st st.
Proof. exists []; rewrite app_nil_r; reflexivity. Qed.

Lemma keys_grow_trans s1 s2 s3 : keys_grow s1 s2 -> keys_grow s2 s3 -> keys_grow s1 s3.
Proof.
  intros [l1 E1] [l2 E2]; exists (app l1 l2); rewrite E2, E1, app_assoc; reflexivity.
Qed.

Lemma keys_grow_update p f st :
  (forall t, ticket_key (f t) = ticket_key t) -> keys_grow st (update_where p f st).
Proof.
  intros Hf; exists []; rewrite app_nil_r; unfold update_where; cbn [tokens].
  rewrite map_map; apply map_ext; intros t; destruct (p t); auto.
Qed.

Lemma keys_grow_log st st' tn ev a : keys_grow st st' -> keys_grow st (insert_log st' tn ev a).
Proof. intros H; exact H. Qed.

Lemma keys_grow_insert st now nt st' : insert_token st now nt = Some st' -> keys_grow st st'.
Proof.
  unfold insert_token; destruct (existsb _ _); intros H; inversion H; subst.
  eexists; cbn [tokens]; rewrite map_app; reflexivity.
Qed.

Create HintDb keys.
#[local] Hint Resolve keys_grow_refl keys_grow_log keys_grow_insert : keys.
#[local] Hint Extern 1 (keys_grow _ (update_where _ _ _)) =>
  apply keys_grow_update; intros; reflexivity : keys.

Lemma keys_grow_alloc r today now pc st : keys_grow st (snd (alloc_step r today now pc st)).
Proof.
  destruct pc as [a|a s|a s|c]; cbn [alloc_step].
  - destruct (a <? max_attempts); apply keys_grow_refl.
  - destruct (insert_token st now _) eqn:E; cbn [snd]; eauto with keys.
  - destruct (insert_token st now _) eqn:E; cbn [snd]; eauto with keys.
  - apply keys_grow_refl.
Qed.

Lemma keys_grow_create today now r st : keys_grow st (snd (create_token today now r st)).
Proof.
  pose proof (create_token_effect today now r st) as He.
  destruct (create_token today now r st) as [[| |tn p e] st']; cbn [snd];
    try (rewrite He; apply keys_grow_refl).
  destruct He as [dp [_ Hi]]; eauto with keys.
Qed.

Lemma keys_grow_op lr o st : keys_grow st (apply_op lr o st).
Proof.
  destruct o as [r today now pc|r today now|tn now|s tn|s tn ns now|s d D today now];
    cbn [apply_op].
  - apply keys_grow_alloc.
  - apply keys_grow_create.
  - unfold cancel_token, cancel_update; destruct lr as [[|k]|]; cbn [snd]; auto with keys.
  - unfold approve_priority, approve_update; destruct (sess_user_id s); cbn [snd];
      auto with keys.
  - unfold update_status; destruct (sess_user_id s); cbn [snd]; [|auto with keys].
    destruct (parse_new_status ns) as [[]|]; cbn [snd];
      unfold complete_update, status_update; auto with keys.
  - unfold call_next; destruct (sess_user_id s); cbn [snd]; [|auto with keys].
    unfold call_next_token; destruct (top_waiting st d _); auto with keys.
Qed.

(** No sequence of the code's writes (statements of [create_token] loops,
    whole calls of the endpoints) removes or reorders a ticket, or changes
    a ticket's id, [token_no], patient name and phone, department, date,
    [priority_requested], reason or [created_at]; tickets are only appended. *)
Theorem tickets_only_appended lr os st :
  exists l, map ticket_key (tokens (apply_ops lr os st)) = app (map ticket_key (tokens st)) l.
Proof.
  change (keys_grow st (apply_ops lr os st)).
  unfold apply_ops; revert st; induction os as [|o os IH]; intros st; cbn [fold_left].
  - apply keys_grow_refl.
  - eapply keys_grow_trans; [apply keys_grow_op | apply IH].
Qed.

(* ------------------------------------------------------------------ *)
(** ** [ORDER BY]: the listings are sorted permutations of the rows *)

Section OrderBy.
Context {A : Type}.
Variable lt : A -> A -> bool.

Lemma insert_by_perm t l : Permutation (insert_by lt t l) (t :: l).
Proof.
  induction l as [|u l IH]; simpl; [auto|].
  destruct (lt t u); [auto|].
  eapply perm_trans; [apply perm_skip, IH | apply perm_swap].
Qed.

Lemma order_by_perm l : Permutation (order_by lt l) l.
Proof.
  unfold order_by.
  assert (G : forall acc, Permutation (fold_left (fun acc t => insert_by lt t acc) l acc)
                                      (app l acc)).
  { induction l as [|t l IH]; intros acc; simpl; [auto|].
    eapply perm_trans; [apply IH|].
    eapply perm_trans; [apply Permutation_app_head, insert_by_perm|].
    apply Permutation_sym, Permutation_middle. }
  rewrite <- (app_nil_r l) at 2; apply G.
Qed.

Hypothesis lt_trans : forall a b c, lt a b = true -> lt b c = true -> lt a c = true.
Hypothesis lt_asym : forall a b, lt a b = true -> lt b a = false.

Lemma insert_by_sorted t l :
  StronglySorted (fun a b => lt b a = false) l ->
  StronglySorted (fun a b => lt b a = false) (insert_by lt t l).
Proof.
  induction l as [|u l IH]; intros H; simpl; [repeat constructor|].
  inversion H as [|? ? Hl Hf]; subst.
  destruct (lt t u) eqn:E.
  - constructor; [exact H|]; constructor; [apply lt_asym, E|].
    rewrite Forall_forall in Hf |- *; intros v Hv; specialize (Hf v Hv).
    destruct (lt v t) eqn:E2; [|reflexivity].
    rewrite (lt_trans _ _ _ E2 E) in Hf; discriminate.
  - constructor; [apply IH, Hl|].
    rewrite Forall_forall in Hf |- *; intros v Hv.
    apply (Permutation_in _ (insert_by_perm t l)) in Hv as [<-|Hv]; auto.
Qed.

Lemma order_by_sorted l : StronglySorted (fun a b => lt b a = false) (order_by lt l).
Proof.
  unfold order_by.
  assert (G : forall acc, StronglySorted (fun a b => lt b a = false) acc ->
    StronglySorted (fun a b => lt b a = false) (fold_left (fun acc t => insert_by lt t acc) l acc)).
  { induction l as [|t l IH]; intros acc H; simpl; [exact H|].
    apply IH, insert_by_sorted, H. }
  apply G; constructor.
Qed.

End OrderBy.

Ltac cmp_cases :=
  repeat match goal with
  | |- context [?x <? ?y] => destruct (Nat.ltb_spec x y)
  | |- context [?x =? ?y] => destruct (Nat.eqb_spec x y)
  end; simpl; intros; try congruence; try lia.

Lemma staff_order_trans a b c :
  staff_order a b = true -> staff_order b c = true -> staff_order a c = true.
Proof.
  unfold staff_order.
  destruct (priority_approved a), (priority_approved b), (priority_approved c); simpl;
    cmp_cases.
Qed.

Lemma staff_order_asym a b : staff_order a b = true -> staff_order b a = false.
Proof.
  unfold staff_order.
  destruct (priority_approved a), (priority_approved b); simpl; cmp_cases.
Qed.

Lemma admin_order_trans a b c :
  admin_order a b = true -> admin_order b c = true -> admin_order a c = true.
Proof. unfold admin_order; cmp_cases. Qed.

Lemma admin_order_asym a b : admin_order a b = true -> admin_order b a = false.
Proof. unfold admin_order; cmp_cases. Qed.

Lemma date_eqb_eq a b : date_eqb a b = true -> a = b.
Proof.
  destruct a as [y m d], b as [y' m' d']; unfold date_eqb; simpl; intros H.
  apply andb_prop in H as [H H3]; apply andb_prop in H as [H1 H2].
  apply Nat.eqb_eq in H1, H2, H3; subst; reflexivity.
Qed.

Lemma ahead_sql_order x y :
  ahead_sql x y = true ->
  staff_order y x = true /\ is_status Waiting y = true
  /\ dept_id y = dept_id x /\ appointment_date y = appointment_date x.
Proof.
  unfold ahead_sql, staff_order, is_status; intros H.
  apply andb_prop in H as [H Ho]; apply andb_prop in H as [H Hs];
    apply andb_prop in H as [Hd Ha].
  apply Nat.eqb_eq in Hd; apply date_eqb_eq in Ha.
  repeat split; auto.
  destruct (priority_approved x), (priority_approved y); simpl in *; auto; lia.
Qed.

Lemma filter_length_impl (p q : token -> bool) l :
  (forall t, p t = true -> q t = true) ->
  List.length (filter p l) <= List.length (filter q l).
Proof.
  intros H; induction l as [|t l IH]; simpl; [lia|].
  destruct (p t) eqn:E; [rewrite (H t E)|destruct (q t)]; simpl; lia.
Qed.

Lemma filter_filter_impl (p q : token -> bool) l :
  (forall t, p t = true -> q t = true) -> filter p (filter q l) = filter p l.
Proof.
  intros H; induction l as [|t l IH]; simpl; [reflexivity|].
  destruct (q t) eqn:Eq; simpl; [rewrite IH; reflexivity|].
  destruct (p t) eqn:Ep; [rewrite (H t Ep) in Eq; discriminate | exact IH].
Qed.

Lemma perm_filter_length (p : token -> bool) l l' :
  Permutation l l' -> List.length (filter p l) = List.length (filter p l').
Proof.
  induction 1; simpl; try reflexivity.
  - destruct (p x); simpl; lia.
  - destruct (p x), (p y); simpl; reflexivity.
  - lia.
Qed.

Lemma sorted_after {B} (R : B -> B -> Prop) pre x post :
  StronglySorted R (app pre (x :: post)) -> Forall (R x) post.
Proof.
  induction pre as [|u pre IH]; simpl; intros H.
  - apply StronglySorted_inv in H; apply H.
  - apply StronglySorted_inv in H; apply IH, H.
Qed.

(** In any list of the pair's tickets ordered like the staff listing, a
    ticket's [position_ahead] is at most the number of Waiting tickets listed
    before it. *)
Lemma position_in_listing st d D rows pre x post :
  Permutation rows (filter (same_pair d D) (tokens st)) ->
  StronglySorted (fun a b => staff_order b a = false) rows ->
  rows = app pre (x :: post) ->
  position_ahead st x <= List.length (filter (is_status Waiting) pre).
Proof.
  intros Hp Hs ->.
  assert (Hx : same_pair d D x = true).
  { apply (Permutation_in x) in Hp; [|apply in_or_app; right; left; reflexivity].
    apply filter_In in Hp; apply Hp. }
  unfold same_pair in Hx; apply andb_prop in Hx as [Hxd Hxa].
  apply Nat.eqb_eq in Hxd; apply date_eqb_eq in Hxa.
  unfold position_ahead.
  rewrite <- (filter_filter_impl (ahead_sql x) (same_pair d D)).
  2:{ intros t Ht; apply ahead_sql_order in Ht as [_ [_ [Hd Ha]]].
      unfold same_pair; rewrite Hd, Ha, Hxd, Hxa, Nat.eqb_refl; simpl.
      destruct D; unfold date_eqb; simpl; rewrite !Nat.eqb_refl; reflexivity. }
  rewrite <- (perm_filter_length _ _ _ Hp).
  rewrite filter_app; cbn [filter].
  assert (Hxx : ahead_sql x x = false).
  { unfold ahead_sql; destruct (priority_approved x); simpl; rewrite Nat.ltb_irrefl;
      rewrite !andb_false_r; reflexivity. }
  rewrite Hxx.
  assert (Hpost : filter (ahead_sql x) post = []).
  { apply sorted_after in Hs; clear Hp; revert Hs.
    induction post as [|y post IH]; intros Hs; simpl; [reflexivity|].
    inversion Hs as [|? ? Hy Hs']; subst.
    destruct (ahead_sql x y) eqn:E; [|exact (IH Hs')].
    apply ahead_sql_order in E as [E _]; rewrite Hy in E; discriminate. }
  rewrite Hpost, app_nil_r.
  apply filter_length_impl; intros t Ht; apply ahead_sql_order in Ht; apply Ht.
Qed.

(** [staff_get_tokens] answers 401 without a logged-in session and 400 when
    ["dept_id"] is missing or empty; otherwise it lists exactly the tickets of
    the department and date (today when none), approved priority first and
    then by [created_at], and a listed ticket's [position_ahead] (as
    [get_token] reports it) is at most the number of Waiting tickets listed
    before it: the first Waiting ticket of the list has none ahead. *)
Theorem staff_get_tokens_listing sql_num s dept_arg date_arg today st :
  (sess_user_id s = None -> staff_get_tokens sql_num s dept_arg date_arg today st = ListUnauthorized)
  /\ (sess_user_id s <> None -> dept_arg = None \/ dept_arg = Some "" ->
        staff_get_tokens sql_num s dept_arg date_arg today st = ListDeptRequired)
  /\ (forall a d, sess_user_id s <> None -> dept_arg = Some a -> a <> "" -> sql_num a = Some d ->
        exists rows, staff_get_tokens sql_num s dept_arg date_arg today st = ListSuccess rows
          /\ Permutation rows (filter (same_pair d (effective_date date_arg today)) (tokens st))
          /\ StronglySorted (fun a b => staff_order b a = false) rows
          /\ forall pre x post, rows = app pre (x :: post) ->
               position_ahead st x <= List.length (filter (is_status Waiting) pre)).
Proof.
  unfold staff_get_tokens; split; [|split].
  - intros ->; reflexivity.
  - intros Hs Ha; destruct (sess_user_id s); [|congruence].
    destruct Ha as [->| ->]; reflexivity.
  - intros a d Hs -> Ha Hd; destruct (sess_user_id s); [|congruence].
    destruct (String.eqb_spec a "") as [E|_]; [congruence|].
    rewrite Hd.
    set (rows := order_by staff_order _).
    assert (Hp : Permutation rows (filter (same_pair d (effective_date date_arg today)) (tokens st)))
      by apply order_by_perm.
    assert (Hso : StronglySorted (fun a b => staff_order b a = false) rows)
      by (apply order_by_sorted; [apply staff_order_trans | apply staff_order_asym]).
    exists rows; split; [reflexivity | split; [exact Hp | split; [exact Hso|]]].
    intros pre x post E; exact (position_in_listing _ _ _ _ _ _ _ Hp Hso E).
Qed.

Definition num_one (a : string) : option nat := if String.eqb a "1" then Some 1 else None.

Lemma staff_get_tokens_listing_witness :
  sess_user_id staff <> None /\ Some "1" = Some "1" /\ "1" <> "" /\ num_one "1" = Some 1
  /\ staff_get_tokens num_one staff (Some "1") None jan1 lifecycle_store
     = ListSuccess [mk_ticket 1 "CARD-001-20240101" false Waiting 100 None;
                    mk_ticket 2 "CARD-002-20240101" false Completed 101 (Some 120);
                    mk_ticket 3 "CARD-003-20240101" true Called 102 (Some 150)]
  /\ position_ahead lifecycle_store (mk_ticket 2 "CARD-002-20240101" false Completed 101 (Some 120))
     <= 1.
Proof.
  assert (Hs : sess_user_id staff <> None) by discriminate.
  assert (Ha : "1" <> "") by discriminate.
  assert (Hd : num_one "1" = Some 1) by reflexivity.
  destruct (proj2 (proj2 (staff_get_tokens_listing num_one staff (Some "1") None jan1
                            lifecycle_store)) "1" 1 Hs eq_refl Ha Hd) as [rows [E [_ [_ Hpos]]]].
  assert (Er : rows = [mk_ticket 1 "CARD-001-20240101" false Waiting 100 None;
                       mk_ticket 2 "CARD-002-20240101" false Completed 101 (Some 120);
                       mk_ticket 3 "CARD-003-20240101" true Called 102 (Some 150)]).
  { vm_compute in E; inversion E; reflexivity. }
  split; [exact Hs | split; [reflexivity | split; [exact Ha | split; [exact Hd | split]]]].
  - rewrite E, Er; reflexivity.
  - exact (Hpos [mk_ticket 1 "CARD-001-20240101" false Waiting 100 None] _
                [mk_ticket 3 "CARD-003-20240101" true Called 102 (Some 150)] Er).
Defined.

Lemma user_id_lt_trans (a b c : user) :
  (user_id a <? user_id b) = true -> (user_id b <? user_id c) = true ->
  (user_id a <? user_id c) = true.
Proof. cmp_cases. Qed.

Lemma user_id_lt_asym (a b : user) :
  (user_id a <? user_id b) = true -> (user_id b <? user_id a) = false.
Proof. cmp_cases. Qed.

(** The admin listings answer only an admin session. [admin_tokens] lists
    exactly the tickets of the date (today when none), by department and then
    by [created_at]; [admin_get_users] lists every user, by id. *)
Theorem admin_listings fs date_arg today st us :
  (is_admin fs = true ->
     (exists rows, admin_tokens fs date_arg today st = ListSuccess rows
        /\ Permutation rows
             (filter (fun t => date_eqb (appointment_date t) (effective_date date_arg today))
                     (tokens st))
        /\ StronglySorted (fun a b => admin_order b a = false) rows)
     /\ (exists l, admin_get_users fs us = Some l /\ Permutation l (users us)
        /\ StronglySorted (fun a b => (user_id b <? user_id a) = false) l))
  /\ (is_admin fs = false ->
        admin_tokens fs date_arg today st = ListUnauthorized /\ admin_get_users fs us = None).
Proof.
  unfold admin_tokens, admin_get_users; split; intros H; rewrite H; [split|split; reflexivity].
  - eexists; split; [reflexivity | split; [apply order_by_perm|]].
    apply order_by_sorted; [apply admin_order_trans | apply admin_order_asym].
  - eexists; split; [reflexivity | split; [apply order_by_perm|]].
    apply order_by_sorted; [apply user_id_lt_trans | apply user_id_lt_asym].
Qed.

Definition admin_session : flask_session := mkFlaskSession (Some 7) (Some "admin") (Some "Root").

Lemma admin_listings_witness :
  is_admin admin_session = true
  /\ admin_tokens admin_session None jan1 lifecycle_store
     = ListSuccess (tokens lifecycle_store).
Proof.
  assert (H : is_admin admin_session = true) by reflexivity.
  split; [exact H|].
  destruct (proj1 (proj1 (admin_listings admin_session None jan1 lifecycle_store
                            (mkUserStore [] 1)) H)) as [rows [E _]].
  rewrite E; vm_compute in E; inversion E; reflexivity.
Defined.

Lemma find_split {B} (p : B -> bool) l u :
  find p l = Some u ->
  exists pre post, l = app pre (u :: post) /\ Forall (fun v => p v = false) pre /\ p u = true.
Proof.
  induction l as [|v l IH]; simpl; [discriminate|].
  destruct (p v) eqn:E; intros H.
  - inversion H; subst; exists [], l; auto.
  - destruct (IH H) as [pre [post [-> [Hf Hu]]]].
    exists (v :: pre), post; simpl; auto.
Qed.

Lemma find_none_all {B} (p : B -> bool) l :
  find p l = None -> forall v, In v l -> p v = false.
Proof.
  induction l as [|w l IH]; simpl; [contradiction|].
  destruct (p w) eqn:E; [discriminate|]; intros H v [<-|Hv]; auto.
Qed.

Lemma staff_login_cases email_eq email us fs :
  match staff_login email_eq email us fs with
  | (LoginSuccess u, fs') =>
      (exists pre post, users us = app pre (u :: post)
         /\ Forall (fun v => login_match email_eq email v = false) pre)
      /\ u_is_active u = 1
      /\ (exists e ue, email = Some e /\ u_email u = Some ue /\ email_eq ue e = true)
      /\ fs' = mkFlaskSession (Some (user_id u)) (u_role u) (u_name u)
  | (LoginInvalid, fs') =>
      fs' = fs /\ forall v, In v (users us) -> login_match email_eq email v = false
  end.
Proof.
  unfold staff_login.
  destruct (find (login_match email_eq email) (users us)) as [u|] eqn:E.
  - destruct (find_split _ _ _ E) as [pre [post [Hs [Hf Hu]]]].
    split; [exists pre, post; auto|].
    unfold login_match in Hu; apply andb_prop in Hu as [Hm Ha].
    split; [apply Nat.eqb_eq, Ha|split; [|reflexivity]].
    destruct email as [e|], (u_email u) as [ue|]; try discriminate.
    exists e, ue; auto.
  - split; [reflexivity | apply find_none_all, E].
Qed.

(** [staff_login] succeeds exactly when an active user ([is_active = 1]) has
    the given email; it logs in as the first such user in table order, whose
    id, role and name become the session. A failed login leaves the session
    as it was, so an earlier login stays in force. *)
Theorem staff_login_spec email_eq email us fs :
  match staff_login email_eq email us fs with
  | (LoginSuccess u, fs') =>
      (exists pre post, users us = app pre (u :: post)
         /\ Forall (fun v => login_match email_eq email v = false) pre)
      /\ u_is_active u = 1
      /\ (exists e ue, email = Some e /\ u_email u = Some ue /\ email_eq ue e = true)
      /\ fs' = mkFlaskSession (Some (user_id u)) (u_role u) (u_name u)
  | (LoginInvalid, fs') =>
      fs' = fs /\ forall v, In v (users us) -> login_match email_eq email v = false
  end.
Proof. exact (staff_login_cases email_eq email us fs). Qed.

(** [1 if v in (1, "1", True, "true") else 0] gives 1 exactly for the
    integer 1, a float equal to 1, [true], and the strings "1" and "true";
    every other value ("True", "yes", 2, false, a missing key) gives 0. *)
Theorem is_active_of_spec v :
  (is_active_of v = 1 <->
     v = JInt 1 \/ v = JBool true \/ v = JStr "1" \/ v = JStr "true"
     \/ exists q, v = JFloat q /\ Qeq q 1)
  /\ (is_active_of v = 0 \/ is_active_of v = 1).
Proof.
  split; [|unfold is_active_of; destruct (existsb _ _); auto].
  unfold is_active_of; destruct v as [|b|z|q|s|]; cbn [existsb py_eq py_num];
    change (inject_Z 1) with 1%Q.
  - simpl; split; [discriminate | intros [H|[H|[H|[H|[q' [H _]]]]]]; discriminate H].
  - destruct b.
    + split; [intros _; right; left; reflexivity | intros _; vm_compute; reflexivity].
    + split; [intros H; vm_compute in H; discriminate H|].
      intros [H|[H|[H|[H|[q' [H _]]]]]]; discriminate H.
  - destruct (Z.eq_dec z 1) as [->|N].
    + split; [intros _; left; reflexivity | intros _; vm_compute; reflexivity].
    + assert (E : Qeq_bool (inject_Z z) 1 = false).
      { destruct (Qeq_bool (inject_Z z) 1) eqn:E; [|reflexivity].
        apply Qeq_bool_iff in E; unfold Qeq in E; simpl in E; lia. }
      rewrite E; simpl; split; [discriminate|].
      intros [H|[H|[H|[H|[q' [H _]]]]]]; try discriminate H; injection H as H; congruence.
  - destruct (Qeq_bool q 1) eqn:E; simpl.
    + split; [intros _; right; right; right; right; exists q; split;
              [reflexivity | apply Qeq_bool_iff, E] | reflexivity].
    + split; [discriminate|].
      intros [H|[H|[H|[H|[q' [H Hq]]]]]]; try discriminate H.
      injection H as <-; apply Qeq_bool_iff in Hq; congruence.
  - destruct (String.eqb_spec s "1") as [->|N1];
      [split; [intros _; right; right; left; reflexivity | intros _; reflexivity]|].
    destruct (String.eqb_spec s "true") as [->|N2];
      [split; [intros _; right; right; right; left; reflexivity | intros _; reflexivity]|].
    simpl; split; [discriminate|].
    intros [H|[H|[H|[H|[q' [H _]]]]]]; try discriminate H; injection H as H; congruence.
  - simpl; split; [discriminate | intros [H|[H|[H|[H|[q' [H _]]]]]]; discriminate H].
Qed.

Lemma find_app_none {B} (p : B -> bool) l1 l2 :
  (forall v, In v l1 -> p v = false) -> find p (app l1 l2) = find p l2.
Proof.
  induction l1 as [|v l1 IH]; simpl; intros H; [reflexivity|].
  rewrite (H v (or_introl eq_refl)); apply IH; auto.
Qed.

(** An admin's [admin_update_user] overwrites every column of the rows with
    that id with the request's values, NULL for a missing one (the update is
    not partial), and leaves every other row as it was; when the
    ["is_active"] value gives 0, no later [staff_login] logs in as that id. *)
Theorem admin_update_user_spec email_eq fs uid name email phone dept role v us
  (Ha : is_admin fs = true) :
  let (res, us') := admin_update_user fs uid name email phone dept role v us in
  res = AdminSuccess
  /\ List.length (users us') = List.length (users us)
  /\ (forall u, In u (users us') -> user_id u = uid ->
        u = mkUser uid name email phone role dept (is_active_of v))
  /\ (forall u, In u (users us) -> user_id u <> uid -> In u (users us'))
  /\ (is_active_of v = 0 -> forall e fs0 u fs1,
        staff_login email_eq e us' fs0 = (LoginSuccess u, fs1) -> user_id u <> uid).
Proof.
  unfold admin_update_user; rewrite Ha; cbn [negb].
  set (f := fun u => if user_id u =? uid
                     then mkUser (user_id u) name email phone role dept (is_active_of v) else u).
  assert (Hf : forall u, In u (map f (users us)) -> user_id u = uid ->
                 u = mkUser uid name email phone role dept (is_active_of v)).
  { intros u Hu Hid; apply in_map_iff in Hu as [u0 [<- _]]; unfold f in *.
    destruct (Nat.eqb_spec (user_id u0) uid) as [E|E]; [rewrite E; reflexivity|congruence]. }
  split; [reflexivity | split; [apply length_map | split; [exact Hf | split]]].
  - intros u Hu Hid; cbn [users]; replace u with (f u) by
      (unfold f; destruct (Nat.eqb_spec (user_id u) uid); congruence).
    apply in_map, Hu.
  - intros H0 e fs0 u fs1 Hl Hid.
    pose proof (staff_login_cases email_eq e (mkUserStore (map f (users us)) (next_user_id us)) fs0)
      as Hs.
    rewrite Hl in Hs; destruct Hs as [[pre [post [Hsplit _]]] [Hact _]].
    assert (Hin : In u (map f (users us))).
    { cbn [users] in Hsplit; rewrite Hsplit; apply in_or_app; right; left; reflexivity. }
    rewrite (Hf u Hin Hid) in Hact; cbn [u_is_active] in Hact; congruence.
Qed.

Definition demo_users : user_store :=
  mkUserStore [mkUser 1 (Some "Root") (Some "root@opd") None (Some "admin") None 1;
               mkUser 2 (Some "Dr. A") (Some "a@opd") None (Some "staff") (Some 1) 1] 3.

Lemma admin_update_user_spec_witness :
  is_admin admin_session = true
  /\ is_active_of (JStr "yes") = 0
  /\ fst (staff_login String.eqb (Some "a@opd")
            (snd (admin_update_user admin_session 2 (Some "Dr. A") (Some "a@opd") None (Some 1)
                    (Some "staff") (JStr "yes") demo_users)) admin_session)
     = LoginInvalid.
Proof.
  assert (Ha : is_admin admin_session = true) by reflexivity.
  pose proof (admin_update_user_spec String.eqb admin_session 2 (Some "Dr. A") (Some "a@opd") None
                (Some 1) (Some "staff") (JStr "yes") demo_users Ha) as H.
  split; [exact Ha | split; [reflexivity|]].
  destruct (admin_update_user _ _ _ _ _ _ _ _ _) as [res us'] eqn:E.
  destruct H as [_ [_ [_ [_ Hl]]]].
  cbn [snd]; destruct (staff_login String.eqb (Some "a@opd") us' admin_session) as [[|u] fs1] eqn:El;
    [reflexivity|].
  exfalso; vm_compute in E; inversion E; subst; vm_compute in El; inversion El.
Defined.

(** When no active user has the email (for the column's collation, which
    matches an email with itself), an admin's [admin_add_user] followed by
    [staff_login] with that email logs in as the new user: the next id,
    [is_active] 1, the role given or "staff". *)
Theorem admin_add_user_then_login email_eq fs name e phone dept role us fs0
  (Ha : is_admin fs = true) (He : email_eq e e = true)
  (Hfresh : forall u, In u (users us) -> login_match email_eq (Some e) u = false) :
  staff_login email_eq (Some e) (snd (admin_add_user fs name (Some e) phone dept role us)) fs0
  = (LoginSuccess (mkUser (next_user_id us) name (Some e) phone (Some (role_or_staff role)) dept 1),
     mkFlaskSession (Some (next_user_id us)) (Some (role_or_staff role)) name).
Proof.
  unfold admin_add_user; rewrite Ha; cbn [negb snd].
  unfold staff_login; cbn [users]; rewrite (find_app_none _ _ _ Hfresh).
  cbn [find]; unfold login_match at 1; cbn [u_email u_is_active]; rewrite He; reflexivity.
Qed.

Lemma admin_add_user_then_login_witness :
  is_admin admin_session = true /\ String.eqb "b@opd" "b@opd" = true
  /\ (forall u, In u (users demo_users) -> login_match String.eqb (Some "b@opd") u = false)
  /\ fst (staff_login String.eqb (Some "b@opd")
            (snd (admin_add_user admin_session (Some "Dr. B") (Some "b@opd") None (Some 1) None
                    demo_users)) (mkFlaskSession None None None))
     = LoginSuccess (mkUser 3 (Some "Dr. B") (Some "b@opd") None (Some "staff") (Some 1) 1).
Proof.
  assert (Ha : is_admin admin_session = true) by reflexivity.
  assert (He : String.eqb "b@opd" "b@opd" = true) by reflexivity.
  assert (Hf : forall u, In u (users demo_users) -> login_match String.eqb (Some "b@opd") u = false).
  { intros u Hu; simpl in Hu; destruct Hu as [<-|[<-|[]]]; reflexivity. }
  split; [exact Ha | split; [exact He | split; [exact Hf|]]].
  rewrite (admin_add_user_then_login String.eqb admin_session (Some "Dr. B") "b@opd" None (Some 1)
             None demo_users (mkFlaskSession None None None) Ha He Hf).
  reflexivity.
Defined.

(** The session gates every staff and admin endpoint: a session that is not
    an admin's gets 401 from the admin endpoints, which change nothing; after
    [staff_logout] every staff endpoint answers 401 and changes nothing; and a
    login gives admin rights exactly when the user's row has role "admin". *)
Theorem session_gates fs us st today :
  (is_admin fs = false ->
     (forall name email phone dept role,
        admin_add_user fs name email phone dept role us = (AdminUnauthorized, us))
     /\ (forall uid name email phone dept role v,
        admin_update_user fs uid name email phone dept role v us = (AdminUnauthorized, us))
     /\ admin_get_users fs us = None
     /\ (forall date_arg, admin_tokens fs date_arg today st = ListUnauthorized))
  /\ (api_me (staff_logout fs) = MeUnauthorized
      /\ is_admin (staff_logout fs) = false
      /\ (forall tn, approve_priority (to_session (staff_logout fs)) tn st = (ApproveUnauthorized, st))
      /\ (forall tn ns now,
            update_status (to_session (staff_logout fs)) tn ns now st = (StatusUnauthorized, st))
      /\ (forall d D now, call_next (to_session (staff_logout fs)) d D today now st = (CallUnauthorized, st))
      /\ (forall sql_num dept_arg date_arg,
            staff_get_tokens sql_num (to_session (staff_logout fs)) dept_arg date_arg today st
            = ListUnauthorized))
  /\ (forall email_eq e u fs1, staff_login email_eq e us fs = (LoginSuccess u, fs1) ->
        (is_admin fs1 = true <-> u_role u = Some "admin")).
Proof.
  split; [|split].
  - intros H; unfold admin_add_user, admin_update_user, admin_get_users, admin_tokens; rewrite H.
    repeat split; reflexivity.
  - repeat split; reflexivity.
  - intros email_eq e u fs1 Hl.
    pose proof (staff_login_cases email_eq e us fs) as Hs; rewrite Hl in Hs.
    destruct Hs as [_ [_ [_ ->]]]; unfold is_admin; cbn [fs_user_id fs_role].
    destruct (u_role u) as [r|]; [|split; discriminate].
    rewrite String.eqb_eq; split; [intros ->|intros H; injection H]; auto.
Qed.
